(** * streamlit_worldle: the scoring and game-state core of [streamlit_app.py]

    A shallow embedding of the geodesy functions, the distance table, the
    locale and name resolution and the six-guess session of the Streamlit
    script, followed by the properties proved about them.

    Numbers.  Python's [float] values are idealised as real numbers ([R]):
    [math.sin], [math.cos], [math.asin], [math.sqrt] and [math.atan2] are the
    real functions, and the exceptions [math.sqrt] and [math.asin] raise
    outside their domains are kept ([py_sqrt], [py_asin]).  Rounding is not
    modelled, nor are signed zeros.  This bounds what the statements say
    about the running code in two places.  In [haversine] the exact
    argument of [sqrt] lies in [0, 1] ([hav_a_bounds]), so the model never
    raises; evaluated on floats it can round just below 0 or above 1, seen
    only for latitudes outside [-90, 90] (at [haversine(160, 0, 20, 180)] it
    is -1.1e-16 and [math.sqrt] raises [ValueError]).  And [math.atan2]
    returns [-pi] for a negative zero or a vanishing negative [y] left of
    the origin, so the float bearing ranges over the closed interval
    [-180, 180].

    Exceptions.  A Python call that may raise returns a [result]; a script
    run returns the session state as it was left when the run ended. *)

From Stdlib Require Import Reals Lra Psatz ZArith List String Bool Lia R_Ifp.
From Stdlib Require Import Permutation Sorted.
Import ListNotations.

Open Scope string_scope.
Open Scope list_scope.
Open Scope R_scope.

(* ===================================================================== *)
(** ** Python values and exceptions *)
(* ===================================================================== *)

(** The exception classes the modelled code can raise. *)
Inductive exn : Type :=
| ValueError
| TypeError
| KeyError
| IndexError
| AttributeError
| ZeroDivisionError
| StreamlitAPIException.

Inductive result (A : Type) : Type :=
| Ok (a : A)
| Raise (e : exn).

Arguments Ok {A} a.
Arguments Raise {A} e.

Definition bind {A B : Type} (r : result A) (k : A -> result B) : result B :=
  match r with
  | Ok a => k a
  | Raise e => Raise e
  end.

Notation "x <- r ;; k" := (bind r (fun x => k))
  (at level 61, r at next level, right associativity).

(** [math.sqrt]: [ValueError] ("math domain error") on a negative argument. *)
Definition py_sqrt (v : R) : result R :=
  if Rlt_dec v 0 then Raise ValueError else Ok (sqrt v).

(** [math.asin]: [ValueError] outside [-1, 1]. *)
Definition py_asin (v : R) : result R :=
  if Rlt_dec v (-1) then Raise ValueError
  else if Rlt_dec 1 v then Raise ValueError
  else Ok (asin v).

(** [math.radians] and [math.degrees]. *)
Definition radians (v : R) : R := v * (PI / 180).
Definition degrees (v : R) : R := v * (180 / PI).

(** [math.atan2 y x] on reals: the angle of the point [(x, y)], in
    [(-PI, PI]], with [atan2 0 0 = 0]. *)
Definition atan2 (y x : R) : R :=
  if Rlt_dec 0 x then atan (y / x)
  else if Rlt_dec x 0 then
    (if Rle_dec 0 y then atan (y / x) + PI else atan (y / x) - PI)
  else if Rlt_dec 0 y then PI / 2
  else if Rlt_dec y 0 then - (PI / 2)
  else 0.

(** Float division: [ZeroDivisionError] on a zero divisor. *)
Definition py_div (a b : R) : result R :=
  if Req_EM_T b 0 then Raise ZeroDivisionError else Ok (a / b).

(** [int(v)] on a float: truncation toward zero. *)
Definition py_int (v : R) : Z :=
  if Rle_dec 0 v then Int_part v else (- Int_part (- v))%Z.

(* ===================================================================== *)
(** ** Geodesy: [haversine], [get_flat_earth_bearing], [MAX_DISTANCE] *)
(* ===================================================================== *)

(** [haversine(lat1, lon1, lat2, lon2, units="km")]. *)
Definition haversine (lat1 lon1 lat2 lon2 : R) (units : string) : result R :=
  let lat1 := radians lat1 in
  let lon1 := radians lon1 in
  let lat2 := radians lat2 in
  let lon2 := radians lon2 in
  let delta_lon := lon2 - lon1 in
  let delta_lat := lat2 - lat1 in
  let a := sin (delta_lat / 2) ^ 2
           + cos lat1 * cos lat2 * sin (delta_lon / 2) ^ 2 in
  s <- py_sqrt a ;;
  t <- py_asin s ;;
  let c := 2 * t in
  let r := if String.eqb units "km" then 6371 else 3956 in
  Ok (c * r).

(** [get_flat_earth_bearing(lat1, lon1, lat2, lon2)]. *)
Definition get_flat_earth_bearing (lat1 lon1 lat2 lon2 : R) : R :=
  let relative_lat := lat2 - lat1 in
  let relative_lon := lon2 - lon1 in
  let angle := atan2 relative_lon relative_lat in
  degrees angle.

(** [MAX_DISTANCE = haversine(0, 0, 180, 0, "km")], evaluated when the module
    is loaded; the module loads only if the call returns
    ([MAX_DISTANCE_loaded] below shows that it does). *)
Definition MAX_DISTANCE_load : result R := haversine 0 0 180 0 "km".

Definition MAX_DISTANCE : R :=
  match MAX_DISTANCE_load with
  | Ok d => d
  | Raise _ => 0
  end.

(* ===================================================================== *)
(** ** The catalog and the distance table *)
(* ===================================================================== *)

(** A shapely [Point]: [x] is the longitude, [y] the latitude. *)
Record Point : Type := { x : R; y : R }.

(** A row of [get_all_locations()], the frame read from table [country]
    with [index_col="fid"].  [fid] is the row's index label, [names] gives
    the cell of each [name_*] column, [centroid] is the computed centroid
    (the [lat] and [lon] columns copy its [y] and [x]). *)
Record Location : Type := {
  fid : Z;
  names : string -> string;
  centroid : Point
}.

(** A row of the frame [get_distances] returns: the catalog row with the
    columns ["distance"] and ["direction"] added. *)
Record Scored : Type := {
  location : Location;
  distance : R;
  direction : R
}.

Definition label (s : Scored) : Z := fid (location s).

(** [LOCALES], in the order the dict literal lists its items. *)
Definition LOCALES : list (string * string) :=
  [ ("ar", "name_ar"); ("bn", "name_bn"); ("de", "name_de");
    ("en", "name_en"); ("es", "name_es"); ("fr", "name_fr");
    ("el", "name_el"); ("hi", "name_hi"); ("hu", "name_hu");
    ("id", "name_id"); ("it", "name_it"); ("ja", "name_ja");
    ("ko", "name_ko"); ("nl", "name_nl"); ("pl", "name_pl");
    ("pt", "name_pt"); ("ru", "name_ru"); ("sv", "name_sv");
    ("tr", "name_tr"); ("vi", "name_vi"); ("zh", "name_zh") ].

Definition DEFAULT_LOCALE : string := "en".

(** [d.keys()] and [d.get(k, default)] of a dict given by its items. *)
Definition keys (d : list (string * string)) : list string := map fst d.

Fixpoint dict_get (d : list (string * string)) (k default : string) : string :=
  match d with
  | [] => default
  | (k', v) :: d' => if String.eqb k' k then v else dict_get d' k default
  end.

(** The [name_*] columns of the frame are the values of [LOCALES]; selecting
    any other name column raises [KeyError]. *)
Definition has_column (col : string) : bool :=
  existsb (String.eqb col) (map snd LOCALES).

(** [df.loc[label]] for a scalar label: [KeyError] when no row carries the
    label, the row when exactly one does.  When several rows carry it pandas
    returns a frame where the callers expect a row, and their next scalar
    operation ([radians], [int]) raises [TypeError]. *)
Definition loc {A : Type} (index : A -> Z) (df : list A) (l : Z) : result A :=
  match filter (fun r => Z.eqb (index r) l) df with
  | [] => Raise KeyError
  | [r] => Ok r
  | _ :: _ :: _ => Raise TypeError
  end.

(** [df.loc[labels, col]] for a list of labels raises [KeyError] when a
    label is missing from the index. *)
Definition has_label {A : Type} (index : A -> Z) (df : list A) (l : Z) : bool :=
  existsb (fun r => Z.eqb (index r) l) df.

Definition loc_all {A : Type} (index : A -> Z) (df : list A) (ls : list Z)
  : result unit :=
  if forallb (has_label index df) ls then Ok tt else Raise KeyError.

(** [df.apply(f, axis=1)]: [f] on every row in order; the first exception
    ends the call. *)
Fixpoint apply_rows {A B : Type} (f : A -> result B) (df : list A)
  : result (list B) :=
  match df with
  | [] => Ok []
  | row :: df' =>
      b <- f row ;;
      bs <- apply_rows f df' ;;
      Ok (b :: bs)
  end.

(** [helper_haversine(row, target_lat, target_lon)]. *)
Definition helper_haversine (row : Location) (target_lat target_lon : R)
  : result R :=
  let row_lat := y (centroid row) in
  let row_lon := x (centroid row) in
  haversine row_lat row_lon target_lat target_lon "km".

(** [helper_bearing(row, target_lat, target_lon)]. *)
Definition helper_bearing (row : Location) (target_lat target_lon : R) : R :=
  let row_lat := y (centroid row) in
  let row_lon := x (centroid row) in
  get_flat_earth_bearing row_lat row_lon target_lat target_lon.

(** Adding the two computed columns to the frame, row by row. *)
Fixpoint assign (df : list Location) (distances directions : list R)
  : list Scored :=
  match df, distances, directions with
  | row :: df', d :: ds, b :: bs =>
      {| location := row; distance := d; direction := b |} :: assign df' ds bs
  | _, _, _ => []
  end.

(** [get_distances(fid)]; [gdf] is the memoised [get_all_locations()]. *)
Definition get_distances (gdf : list Location) (target : Z)
  : result (list Scored) :=
  target_row <- loc fid gdf target ;;
  let target_centroid := centroid target_row in
  let target_lat := y target_centroid in
  let target_lon := x target_centroid in
  distances <- apply_rows
                 (fun row => helper_haversine row target_lat target_lon) gdf ;;
  let directions :=
    map (fun row => helper_bearing row target_lat target_lon) gdf in
  Ok (assign gdf distances directions).

(* ===================================================================== *)
(** ** Locale selection *)
(* ===================================================================== *)

(** [l.index(v)]: the first position of [v], [ValueError] when absent. *)
Fixpoint list_index (v : string) (l : list string) : result nat :=
  match l with
  | [] => Raise ValueError
  | v' :: l' =>
      if String.eqb v' v then Ok 0%nat
      else i <- list_index v l' ;; Ok (S i)
  end.

(** The [try] block of [main] that computes [locale_index] from
    [query_params.get(LOCALE)]; [(ValueError, TypeError)] are caught and
    leave the initial [3].  Subscripting [None] raises [TypeError];
    subscripting an empty list raises [IndexError], which is not caught. *)
Definition locale_index_of (query_locales : option (list string)) : result nat :=
  let locale_index := 3%nat in
  match query_locales with
  | None => Ok locale_index
  | Some [] => Raise IndexError
  | Some (code :: _) =>
      match list_index code (keys LOCALES) with
      | Ok i => Ok i
      | Raise ValueError => Ok locale_index
      | Raise TypeError => Ok locale_index
      | Raise e => Raise e
      end
  end.

(** [st.selectbox(label, options, index, key=...)]: the value the widget
    holds under its key when the user has set one, the option at [index]
    otherwise. *)
Definition selectbox (options : list string) (index : nat)
    (held : option string) : result string :=
  match held with
  | Some v => Ok v
  | None =>
      match nth_error options index with
      | Some v => Ok v
      | None => Raise StreamlitAPIException
      end
  end.

(** The locale part of [main]: from the query parameter and the widget to
    [locale_col]. *)
Definition select_locale_col (query_locales : option (list string))
    (held : option string) : result string :=
  locale_index <- locale_index_of query_locales ;;
  selected_locale <- selectbox (keys LOCALES) locale_index held ;;
  Ok (dict_get LOCALES selected_locale "en").

(* ===================================================================== *)
(** ** Proximity display *)
(* ===================================================================== *)

Inductive prox_icon : Type := Gold | Silver | Bronze.

(** The [if]/[elif]/[else] on [int(distance_percentage)]. *)
Definition prox_icon_of (distance_percentage : R) : prox_icon :=
  if Z.eqb (py_int distance_percentage) 100 then Gold
  else if Z.gtb (py_int distance_percentage) 50 then Silver
  else Bronze.

(** One [st.info] line of the guess list. *)
Record GuessInfo : Type := {
  display_guess_name : string;
  info_distance : R;
  info_direction : R;
  info_icon : prox_icon;
  distance_percentage : R
}.

(** The body of [for display_guess in guesses]. *)
Definition display_guess (all_locations : list Scored) (locale_col : string)
    (g : Z) : result GuessInfo :=
  display_guess_country <- loc label all_locations g ;;
  if has_column locale_col then
    let name := names (location display_guess_country) locale_col in
    let dist := distance display_guess_country in
    q <- py_div dist MAX_DISTANCE ;;
    let pct := (1 - q) * 100 in
    let dir := direction display_guess_country in
    Ok {| display_guess_name := name;
          info_distance := dist;
          info_direction := dir;
          info_icon := prox_icon_of pct;
          distance_percentage := pct |}
  else Raise KeyError.

(* ===================================================================== *)
(** ** Name resolution *)
(* ===================================================================== *)

(** [all_locations.index[all_locations[locale_col] == guess][0]]: the index
    label of the first row whose name equals [guess]; [IndexError] when the
    mask selects no row, [KeyError] when the column does not exist. *)
Definition resolve_guess (all_locations : list Scored)
    (locale_col guess : string) : result Z :=
  if has_column locale_col then
    match filter (fun r => String.eqb (names (location r) locale_col) guess)
                 all_locations with
    | [] => Raise IndexError
    | r :: _ => Ok (label r)
    end
  else Raise KeyError.

(* ===================================================================== *)
(** ** The session and one run of [main] *)
(* ===================================================================== *)

(** [st.session_state], keys [RANDOM_LOCATION], [ALL_LOCATIONS], [GUESSES].
    Of the stored [sqlite3.Row] only the ["fid"] field is ever read. *)
Record SessionState : Type := {
  random_location : option Z;
  all_locations : option (list Scored);
  guesses : option (list Z)
}.

Definition no_session : SessionState :=
  {| random_location := None; all_locations := None; guesses := None |}.

(** What one run of the script receives from outside: the query string, the
    widgets, and the row [get_random_location()] draws ([None] on an empty
    table). *)
Record Request : Type := {
  query_locales : option (list string);
  locale_held : option string;
  random_row : option Z;
  show_guesses_on_map : bool;
  show_on_map : bool;
  guess : string;
  has_guessed : bool
}.

(** How a run ends: the three [st.stop()] places and the final
    [st.experimental_rerun()], each with the guess lines shown before it. *)
Inductive Page : Type :=
| PageWon (header : string)
| PageLost (infos : list GuessInfo)
| PageWarning (infos : list GuessInfo)
| PageRerun (infos : list GuessInfo).

(** [x in l] on a list of index labels. *)
Definition mem (v : Z) (l : list Z) : bool := existsb (Z.eqb v) l.

(** The optional maps of the "Hints!" expander.  [targets] is a copy of the
    guess list ([list(guesses)]), so appending the target to it leaves the
    stored guesses alone; only the label lookup
    [all_locations.loc[targets, "geom"]] can end the run. *)
Definition hint_maps (all_locs : list Scored) (target : Z) (gs : list Z)
    (rq : Request) : result unit :=
  if show_guesses_on_map rq || show_on_map rq then
    let targets := if show_on_map rq then gs ++ [target] else gs in
    if (0 <? List.length targets)%nat then loc_all label all_locs targets else Ok tt
  else Ok tt.

(** [main] from [already_won = ...] to its end.  The list [guesses] is the
    object stored in the session, so the final [append] changes the stored
    list: the run returns the list as it leaves it.  The first test stands
    for the two target lookups before [if already_won], which raise
    [KeyError] when the target is not a label of the table; on a table
    built by [get_distances] the target's label is carried by one row. *)
Definition play (locale_col : string) (target : Z) (all_locs : list Scored)
    (gs : list Z) (rq : Request) : list Z * result Page :=
  let already_won := mem target gs in
  if negb (has_label label all_locs target) then (gs, Raise KeyError)
  else if already_won then
    (gs,
     target_row <- loc label all_locs target ;;
     if has_column locale_col then
       _ <- loc_all label all_locs gs ;;
       Ok (PageWon (names (location target_row) locale_col))
     else Raise KeyError)
  else
    match hint_maps all_locs target gs rq with
    | Raise e => (gs, Raise e)
    | Ok _ =>
      match apply_rows (display_guess all_locs locale_col) gs with
      | Raise e => (gs, Raise e)
      | Ok infos =>
        if (List.length gs =? 6)%nat then (gs, Ok (PageLost infos))
        else
          match resolve_guess all_locs locale_col (guess rq) with
          | Raise e => (gs, Raise e)
          | Ok guess_fid =>
            if negb (has_guessed rq) || mem guess_fid gs
            then (gs, Ok (PageWarning infos))
            else (gs ++ [guess_fid], Ok (PageRerun infos))
          end
      end
    end.

(** The [if RANDOM_LOCATION not in st.session_state] block: a new session
    (target drawn, table computed, no guess) or the stored one.  In both
    branches the local [guesses] is the very list held by the session. *)
Definition load_session (gdf : list Location) (st : SessionState)
    (rq : Request) : result (SessionState * (Z * list Scored * list Z)) :=
  match random_location st with
  | None =>
      match random_row rq with
      | None => Raise TypeError
      | Some f =>
          all_locs <- get_distances gdf f ;;
          Ok ({| random_location := Some f;
                 all_locations := Some all_locs;
                 guesses := Some [] |}, (f, all_locs, []))
      end
  | Some f =>
      match guesses st with
      | None => Raise TypeError
      | Some gs =>
          match all_locations st with
          | None => Raise AttributeError
          | Some all_locs => Ok (st, (f, all_locs, gs))
          end
      end
  end.

Definition set_guesses (st : SessionState) (gs : list Z) : SessionState :=
  {| random_location := random_location st;
     all_locations := all_locations st;
     guesses := Some gs |}.

(** One run of [main()]: the session it leaves and how the run ended. *)
Definition main (gdf : list Location) (st : SessionState) (rq : Request)
  : SessionState * result Page :=
  match select_locale_col (query_locales rq) (locale_held rq) with
  | Raise e => (st, Raise e)
  | Ok locale_col =>
      match load_session gdf st rq with
      | Raise e => (st, Raise e)
      | Ok (st1, (target, all_locs, gs)) =>
          let (gs', page) := play locale_col target all_locs gs rq in
          (set_guesses st1 gs', page)
      end
  end.

(** [on_reset()]: [st.session_state.pop(RANDOM_LOCATION)]. *)
Definition on_reset (st : SessionState) : result SessionState :=
  match random_location st with
  | None => Raise KeyError
  | Some _ =>
      Ok {| random_location := None;
            all_locations := all_locations st;
            guesses := guesses st |}
  end.

(** The sessions a browser session can be in: it starts empty, and every
    interaction is a run of [main] or a reset button's callback. *)
Inductive reachable (gdf : list Location) : SessionState -> Prop :=
| reach_start : reachable gdf no_session
| reach_run st rq :
    reachable gdf st -> reachable gdf (fst (main gdf st rq))
| reach_reset st st' :
    reachable gdf st -> on_reset st = Ok st' -> reachable gdf st'.

(* ===================================================================== *)
(** ** Closed forms, the session invariant and sample data *)
(* ===================================================================== *)

(** The quantity under the square root in [haversine], on radians. *)
Definition hav_a (lat1 lon1 lat2 lon2 : R) : R :=
  sin ((lat2 - lat1) / 2) ^ 2
  + cos lat1 * cos lat2 * sin ((lon2 - lon1) / 2) ^ 2.

(** The value of the haversine formula with radius [r], as a total real
    function of points given in degrees. *)
Definition great_circle (r lat1 lon1 lat2 lon2 : R) : R :=
  2 * asin (sqrt (hav_a (radians lat1) (radians lon1)
                        (radians lat2) (radians lon2))) * r.

Definition radius (units : string) : R :=
  if String.eqb units "km" then 6371 else 3956.

(** The row [get_distances] builds for [row] when the target is [target_row]. *)
Definition score (target_row row : Location) : Scored :=
  {| location := row;
     distance := great_circle 6371
                   (y (centroid row)) (x (centroid row))
                   (y (centroid target_row)) (x (centroid target_row));
     direction := degrees (atan2 (x (centroid target_row) - x (centroid row))
                                 (y (centroid target_row) - y (centroid row))) |}.

Definition session (t : Z) (table : list Scored) (gs : list Z) : SessionState :=
  {| random_location := Some t; all_locations := Some table; guesses := Some gs |}.

(** The stored list never exceeds six guesses; while a target is stored,
    the table is the one [get_distances] built for it and every guess is a
    label of that table, recorded once. *)
Definition session_inv (gdf : list Location) (st : SessionState) : Prop :=
  (forall gs, guesses st = Some gs -> (List.length gs <= 6)%nat) /\
  (forall t, random_location st = Some t ->
     exists table gs,
       all_locations st = Some table /\ guesses st = Some gs /\
       get_distances gdf t = Ok table /\
       Forall (fun g => has_label label table g = true) gs /\
       NoDup gs).

(** Catalogs used to instantiate the statements below: records on the
    equator as in the specification's scenario. *)
Definition country (f : Z) (n : string) (lat lon : R) : Location :=
  {| fid := f; names := fun _ => n; centroid := {| x := lon; y := lat |} |}.

Definition example_catalog : list Location :=
  [ country 1 "A" 0 0; country 2 "B" 0 90; country 3 "C" 0 180;
    country 4 "D" 0 30; country 5 "E" 0 60; country 6 "F" 0 120;
    country 7 "G" 0 150 ].

Definition example_table : list Scored :=
  map (score (country 1 "A" 0 0)) example_catalog.

Definition example_session (gs : list Z) : SessionState :=
  session 1 example_table gs.

(** Target at (0, 0) and a second record 89.1 degrees east of it. *)
Definition half_way_catalog : list Location :=
  [ country 1 "A" 0 0; country 2 "B" 0 (891 / 10) ].

(** Two records sharing the display name ["Georgia"]. *)
Definition homonym_catalog : list Location :=
  [ country 1 "Chad" 15 19; country 2 "Georgia" 42 43;
    country 3 "Georgia" 33 (-83) ].

Definition homonym_table : list Scored :=
  map (score (country 1 "Chad" 15 19)) homonym_catalog.

(** A form submission of the display name [n], and a run with no submission
    (the selectbox then shows its first option). *)
Definition submit (n : string) : Request :=
  {| query_locales := None; locale_held := None; random_row := Some 1%Z;
     show_guesses_on_map := false; show_on_map := false;
     guess := n; has_guessed := true |}.

Definition rerender (t : Z) : Request :=
  {| query_locales := None; locale_held := None; random_row := Some t;
     show_guesses_on_map := false; show_on_map := false;
     guess := "A"; has_guessed := false |}.

(* ===================================================================== *)
(** ** Further functions of the script *)
(* ===================================================================== *)

(** [get_country_names(all_locations, locale_col)]: the column as a list,
    in row order.  [main] passes the same column to the guess selectbox as
    its options. *)
Definition get_country_names (all_locations : list Scored) (locale_col : string)
  : result (list string) :=
  if has_column locale_col
  then Ok (map (fun r => names (location r) locale_col) all_locations)
  else Raise KeyError.

(** The icons from worst to best. *)
Definition icon_rank (i : prox_icon) : nat :=
  match i with
  | Bronze => 0
  | Silver => 1
  | Gold => 2
  end.

(** The guess lines a page shows, if any. *)
Definition page_infos (p : Page) : list GuessInfo :=
  match p with
  | PageWon _ => []
  | PageLost infos => infos
  | PageWarning infos => infos
  | PageRerun infos => infos
  end.

(** A row of table [country] in the spatial database: its [fid], its
    [type] ([None] for SQL NULL), its [name_*] cells, and the centroid
    geopandas computes from its geometry. *)
Record CountryRow : Type := {
  row_fid : Z;
  row_type : option string;
  row_names : string -> string;
  row_centroid : Point
}.

(** [WHERE type != 'Dependency' and type != 'Lease']; a comparison with
    NULL is not true, so a row without type is not selected. *)
Definition selectable (r : CountryRow) : bool :=
  match row_type r with
  | Some ty => negb (String.eqb ty "Dependency") && negb (String.eqb ty "Lease")
  | None => false
  end.

(** [get_random_location()]: [ORDER BY RANDOM() LIMIT 1] over the selected
    rows and [fetchone()]; [rnd] is the random source, and the result is
    [None] when no row is selected. *)
Definition get_random_location (country : list CountryRow) (rnd : nat)
  : option CountryRow :=
  let rows := filter selectable country in
  nth_error rows (rnd mod List.length rows).

(** [ORDER BY name_en], byte-wise on the text.  Rows with equal names keep
    their table order here; SQL leaves the order of ties open, and nothing
    below depends on it. *)
Fixpoint insert_by_name_en (r : CountryRow) (rows : list CountryRow)
  : list CountryRow :=
  match rows with
  | [] => [r]
  | r' :: rows' =>
      if String.leb (row_names r "name_en") (row_names r' "name_en")
      then r :: rows
      else r' :: insert_by_name_en r rows'
  end.

Fixpoint order_by_name_en (rows : list CountryRow) : list CountryRow :=
  match rows with
  | [] => []
  | r :: rows' => insert_by_name_en r (order_by_name_en rows')
  end.

(** A database row as a row of the frame: indexed by [fid]
    ([index_col="fid"]), with the centroid column added. *)
Definition as_location (r : CountryRow) : Location :=
  {| fid := row_fid r; names := row_names r; centroid := row_centroid r |}.

(** [get_all_locations()]: the selected rows ordered by English name. *)
Definition get_all_locations (country : list CountryRow) : list Location :=
  map as_location (order_by_name_en (filter selectable country)).

(** A small table: two countries, a dependency and a lease. *)
Definition peru : CountryRow :=
  {| row_fid := 1; row_type := Some "Country";
     row_names := fun _ => "Peru"; row_centroid := {| x := -75; y := -10 |} |}.

Definition aruba : CountryRow :=
  {| row_fid := 2; row_type := Some "Dependency";
     row_names := fun _ => "Aruba"; row_centroid := {| x := -70; y := 12 |} |}.

Definition chad : CountryRow :=
  {| row_fid := 3; row_type := Some "Sovereign country";
     row_names := fun _ => "Chad"; row_centroid := {| x := 19; y := 15 |} |}.

Definition baikonur : CountryRow :=
  {| row_fid := 4; row_type := Some "Lease";
     row_names := fun _ => "Baikonur"; row_centroid := {| x := 63; y := 46 |} |}.

Definition example_country : list CountryRow := [peru; aruba; chad; baikonur].

(* ===================================================================== *)
(** * Properties *)
(* ===================================================================== *)

(** ** Geodesy *)

Lemma sin_sq_bounds (t : R) : 0 <= sin t ^ 2 <= 1.
Proof.
  pose proof (sin2_cos2 t) as H. unfold Rsqr in H.
  pose proof (pow2_ge_0 (sin t)). pose proof (pow2_ge_0 (cos t)).
  simpl in *. lra.
Qed.

Lemma sin_half_sq (t : R) : sin (t / 2) ^ 2 = (1 - cos t) / 2.
Proof.
  pose proof (cos_2a_sin (t / 2)) as H.
  replace (2 * (t / 2)) with t in H by field.
  simpl. lra.
Qed.

(** [hav_a] is half of one minus the cosine of the central angle, so it
    lies in [0, 1] for all real arguments, in range or not. *)
Lemma hav_a_bounds (lat1 lon1 lat2 lon2 : R) :
  0 <= hav_a lat1 lon1 lat2 lon2 <= 1.
Proof.
  unfold hav_a.
  rewrite (sin_half_sq (lat2 - lat1)).
  pose proof (sin_sq_bounds ((lon2 - lon1) / 2)) as [Hs0 Hs1].
  set (s := sin ((lon2 - lon1) / 2) ^ 2) in *.
  rewrite cos_minus.
  pose proof (COS_bound (lat2 - lat1)) as [Hm0 Hm1].
  pose proof (COS_bound (lat2 + lat1)) as [Hp0 Hp1].
  rewrite cos_minus in Hm0, Hm1. rewrite cos_plus in Hp0, Hp1.
  set (c1 := cos lat1) in *. set (c2 := cos lat2) in *.
  set (s1 := sin lat1) in *. set (s2 := sin lat2) in *.
  split; nra.
Qed.

Lemma py_sqrt_ok (v : R) : 0 <= v -> py_sqrt v = Ok (sqrt v).
Proof.
  intros Hv. unfold py_sqrt. destruct (Rlt_dec v 0); [lra | reflexivity].
Qed.

Lemma py_asin_ok (v : R) : -1 <= v <= 1 -> py_asin v = Ok (asin v).
Proof.
  intros [H0 H1]. unfold py_asin.
  destruct (Rlt_dec v (-1)); [lra |].
  destruct (Rlt_dec 1 v); [lra | reflexivity].
Qed.

Lemma sqrt_unit (v : R) : 0 <= v <= 1 -> 0 <= sqrt v <= 1.
Proof.
  intros [H0 H1]. split; [apply sqrt_pos |].
  rewrite <- sqrt_1. apply sqrt_le_1_alt. exact H1.
Qed.

(** [haversine] returns the value of the formula on every input. *)
Lemma haversine_value (lat1 lon1 lat2 lon2 : R) (units : string) :
  haversine lat1 lon1 lat2 lon2 units
  = Ok (great_circle (radius units) lat1 lon1 lat2 lon2).
Proof.
  unfold haversine, great_circle, radius.
  fold (hav_a (radians lat1) (radians lon1) (radians lat2) (radians lon2)).
  pose proof (hav_a_bounds (radians lat1) (radians lon1)
                           (radians lat2) (radians lon2)) as Ha.
  rewrite (py_sqrt_ok _ (proj1 Ha)). simpl.
  pose proof (sqrt_unit _ Ha) as Hs.
  rewrite py_asin_ok by lra. simpl. reflexivity.
Qed.

Lemma hav_a_same (lat lon : R) : hav_a lat lon lat lon = 0.
Proof.
  unfold hav_a.
  replace ((lat - lat) / 2) with 0 by field.
  replace ((lon - lon) / 2) with 0 by field.
  rewrite sin_0. simpl. ring.
Qed.

Lemma hav_a_sym (lat1 lon1 lat2 lon2 : R) :
  hav_a lat1 lon1 lat2 lon2 = hav_a lat2 lon2 lat1 lon1.
Proof.
  unfold hav_a.
  replace ((lat1 - lat2) / 2) with (- ((lat2 - lat1) / 2)) by field.
  replace ((lon1 - lon2) / 2) with (- ((lon2 - lon1) / 2)) by field.
  rewrite !sin_neg. simpl. ring.
Qed.

Lemma great_circle_same (r lat lon : R) : great_circle r lat lon lat lon = 0.
Proof.
  unfold great_circle. rewrite hav_a_same, sqrt_0, asin_0. ring.
Qed.

Lemma great_circle_sym (r lat1 lon1 lat2 lon2 : R) :
  great_circle r lat1 lon1 lat2 lon2 = great_circle r lat2 lon2 lat1 lon1.
Proof.
  unfold great_circle. now rewrite hav_a_sym.
Qed.

Lemma great_circle_nonneg (r lat1 lon1 lat2 lon2 : R) :
  0 <= r -> 0 <= great_circle r lat1 lon1 lat2 lon2 <= PI * r.
Proof.
  intros Hr. unfold great_circle.
  pose proof (hav_a_bounds (radians lat1) (radians lon1)
                           (radians lat2) (radians lon2)) as Ha.
  pose proof (sqrt_unit _ Ha) as [Hs0 Hs1].
  set (s := sqrt _) in *.
  assert (0 <= asin s <= PI / 2) as [Hl Hu].
  { split.
    - destruct (Rle_lt_dec 0 (asin s)) as [Hge | Hlt]; [exact Hge |].
      pose proof (asin_bound s) as [Hb _]. pose proof PI_RGT_0.
      assert (sin (asin s) < 0) by (apply sin_lt_0_var; lra).
      rewrite sin_asin in * by lra. lra.
    - pose proof (asin_bound s). lra. }
  pose proof PI_RGT_0. split; nra.
Qed.

Lemma MAX_DISTANCE_loaded : MAX_DISTANCE_load = Ok (PI * 6371).
Proof.
  unfold MAX_DISTANCE_load. rewrite haversine_value. f_equal.
  unfold great_circle, radius, hav_a, radians. simpl String.eqb. cbv iota.
  replace ((180 * (PI / 180) - 0 * (PI / 180)) / 2) with (PI / 2) by field.
  replace ((0 * (PI / 180) - 0 * (PI / 180)) / 2) with 0 by field.
  rewrite sin_PI2, sin_0.
  replace (1 ^ 2 + cos (0 * (PI / 180)) * cos (180 * (PI / 180)) * 0 ^ 2)
    with 1 by (simpl; ring).
  rewrite sqrt_1, asin_1. field.
Qed.

Lemma MAX_DISTANCE_value : MAX_DISTANCE = PI * 6371.
Proof. unfold MAX_DISTANCE. now rewrite MAX_DISTANCE_loaded. Qed.

Lemma MAX_DISTANCE_pos : 0 < MAX_DISTANCE.
Proof. rewrite MAX_DISTANCE_value. pose proof PI_RGT_0. lra. Qed.

(** ** Frames: [loc], [apply], [get_distances] *)

Lemma apply_rows_total {A B : Type} (f : A -> result B) (g : A -> B)
    (df : list A) :
  (forall row, In row df -> f row = Ok (g row)) ->
  apply_rows f df = Ok (map g df).
Proof.
  induction df as [| row df IH]; intros Hf; simpl; [reflexivity |].
  rewrite (Hf row) by (left; reflexivity). simpl.
  rewrite IH by (intros r Hr; apply Hf; right; exact Hr). reflexivity.
Qed.

Lemma assign_map (df : list Location) (f g : Location -> R) :
  assign df (map f df) (map g df)
  = map (fun row => {| location := row; distance := f row; direction := g row |}) df.
Proof. induction df as [| row df IH]; simpl; [| rewrite IH]; reflexivity. Qed.

Lemma filter_label_nil {A : Type} (index : A -> Z) (df : list A) (l : Z) :
  ~ In l (map index df) -> filter (fun r => Z.eqb (index r) l) df = [].
Proof.
  induction df as [| r df IH]; simpl; intros Hn; [reflexivity |].
  destruct (Z.eqb_spec (index r) l) as [E | E]; [tauto |].
  apply IH. tauto.
Qed.

Lemma filter_label_In {A : Type} (index : A -> Z) (df : list A) (l : Z) (r : A) :
  In r (filter (fun r => Z.eqb (index r) l) df) <-> In r df /\ index r = l.
Proof. rewrite filter_In, Z.eqb_eq. tauto. Qed.

(** With unique labels, [loc] finds the row of every label of the index. *)
Lemma loc_unique {A : Type} (index : A -> Z) (df : list A) (r : A) :
  NoDup (map index df) -> In r df -> loc index df (index r) = Ok r.
Proof.
  unfold loc. induction df as [| r' df IH]; simpl; intros Hnd Hin; [tauto |].
  inversion Hnd as [| ? ? Hnotin Hnd']; subst.
  destruct Hin as [-> | Hin].
  - rewrite Z.eqb_refl, filter_label_nil by exact Hnotin. reflexivity.
  - destruct (Z.eqb_spec (index r') (index r)) as [E | E].
    + exfalso. apply Hnotin. rewrite E. apply in_map. exact Hin.
    + apply IH; assumption.
Qed.

Lemma loc_Ok {A : Type} (index : A -> Z) (df : list A) (l : Z) (r : A) :
  loc index df l = Ok r -> In r df /\ index r = l.
Proof.
  unfold loc. intros H. apply (filter_label_In index df l r).
  destruct (filter _ df) as [| r1 [| r2 rest]]; try discriminate.
  injection H as ->. left. reflexivity.
Qed.

Lemma loc_has_label {A : Type} (index : A -> Z) (df : list A) (l : Z) (r : A) :
  loc index df l = Ok r -> has_label index df l = true.
Proof.
  intros H. apply loc_Ok in H as [Hin Hl]. unfold has_label.
  apply existsb_exists. exists r. split; [exact Hin | now apply Z.eqb_eq].
Qed.

Lemma has_label_In {A : Type} (index : A -> Z) (df : list A) (l : Z) :
  has_label index df l = true <-> In l (map index df).
Proof.
  unfold has_label. rewrite existsb_exists, in_map_iff.
  split; intros [r [H1 H2]]; exists r.
  - apply Z.eqb_eq in H2. tauto.
  - split; [tauto | apply Z.eqb_eq; tauto].
Qed.

Lemma loc_map {A B : Type} (index : B -> Z) (h : A -> B) (df : list A) (l : Z) :
  loc index (map h df) l = r <- loc (fun a => index (h a)) df l ;; Ok (h r).
Proof.
  unfold loc.
  assert (E : filter (fun r => Z.eqb (index r) l) (map h df)
              = map h (filter (fun a => Z.eqb (index (h a)) l) df)).
  { induction df as [| a df IH]; simpl; [reflexivity |].
    destruct (Z.eqb (index (h a)) l); simpl; now rewrite IH. }
  rewrite E. destruct (filter _ df) as [| a1 [| a2 rest]]; reflexivity.
Qed.

Lemma get_distances_value (gdf : list Location) (target : Z) (target_row : Location) :
  loc fid gdf target = Ok target_row ->
  get_distances gdf target = Ok (map (score target_row) gdf).
Proof.
  intros Hloc. unfold get_distances. rewrite Hloc. simpl.
  rewrite (apply_rows_total _
             (fun row => great_circle 6371 (y (centroid row)) (x (centroid row))
                           (y (centroid target_row)) (x (centroid target_row)))).
  - simpl. rewrite assign_map. reflexivity.
  - intros row _. unfold helper_haversine. now rewrite haversine_value.
Qed.

Lemma get_distances_Ok (gdf : list Location) (target : Z) (table : list Scored) :
  get_distances gdf target = Ok table ->
  exists target_row,
    loc fid gdf target = Ok target_row /\ table = map (score target_row) gdf.
Proof.
  intros H. destruct (loc fid gdf target) as [target_row | e] eqn:Hloc.
  - exists target_row. split; [reflexivity |].
    rewrite (get_distances_value _ _ _ Hloc) in H. now injection H.
  - unfold get_distances in H. rewrite Hloc in H. discriminate.
Qed.

Lemma map_label_score (target_row : Location) (gdf : list Location) :
  map label (map (score target_row) gdf) = map fid gdf.
Proof. rewrite map_map. reflexivity. Qed.

Lemma map_location_score (target_row : Location) (gdf : list Location) :
  map location (map (score target_row) gdf) = gdf.
Proof. rewrite map_map. simpl. apply map_id. Qed.

Lemma example_table_built : get_distances example_catalog 1 = Ok example_table.
Proof. apply get_distances_value. reflexivity. Qed.

Lemma example_fid_unique : NoDup (map fid example_catalog).
Proof. simpl. repeat constructor; simpl; intuition lia. Qed.

(** ** Sessions: what every reachable session satisfies *)

Lemma mem_In (v : Z) (l : list Z) : mem v l = true <-> In v l.
Proof.
  unfold mem. rewrite existsb_exists. split.
  - intros [w [Hin E]]. apply Z.eqb_eq in E. now subst.
  - intros Hin. exists v. split; [exact Hin | apply Z.eqb_refl].
Qed.

Lemma mem_false (v : Z) (l : list Z) : mem v l = false <-> ~ In v l.
Proof.
  rewrite <- mem_In. destruct (mem v l); split; intros H; easy.
Qed.

Lemma set_guesses_same (st : SessionState) (gs : list Z) :
  guesses st = Some gs -> set_guesses st gs = st.
Proof. destruct st; simpl; intros ->; reflexivity. Qed.

Lemma resolve_guess_Ok (table : list Scored) (col guess : string) (g : Z) :
  resolve_guess table col guess = Ok g ->
  has_column col = true /\
  exists pre r post,
    table = pre ++ r :: post /\ label r = g /\
    names (location r) col = guess /\
    (forall r', In r' pre -> names (location r') col <> guess).
Proof.
  unfold resolve_guess. destruct (has_column col); [| discriminate].
  intros H. split; [reflexivity |].
  induction table as [| r0 table IH]; simpl in H; [discriminate |].
  destruct (String.eqb_spec (names (location r0) col) guess) as [E | E].
  - injection H as <-. exists [], r0, table. simpl. tauto.
  - destruct (IH H) as (pre & r & post & -> & Hl & Hn & Hpre).
    exists (r0 :: pre), r, post. simpl. repeat split; try assumption.
    intros r' [<- | Hin]; [exact E | now apply Hpre].
Qed.

Lemma resolve_guess_label (table : list Scored) (col guess : string) (g : Z) :
  resolve_guess table col guess = Ok g -> has_label label table g = true.
Proof.
  intros H. apply resolve_guess_Ok in H as (_ & pre & r & post & -> & <- & _).
  apply has_label_In. rewrite map_app. apply in_or_app. right. now left.
Qed.

(** A run either leaves the guess list as it is or appends the resolved
    guess, and appends only past the win check, the count check and the
    duplicate check. *)
Lemma play_guesses (col : string) (t : Z) (table : list Scored) (gs : list Z)
    (rq : Request) :
  fst (play col t table gs rq) = gs \/
  exists g infos,
    play col t table gs rq = (gs ++ [g], Ok (PageRerun infos)) /\
    mem t gs = false /\ List.length gs <> 6%nat /\
    resolve_guess table col (guess rq) = Ok g /\
    has_guessed rq = true /\ mem g gs = false.
Proof.
  unfold play.
  destruct (has_label label table t); simpl; [| now left].
  destruct (mem t gs) eqn:Hwon; [now left |].
  destruct (hint_maps table t gs rq); [| now left].
  destruct (apply_rows (display_guess table col) gs) as [infos | e]; [| now left].
  destruct (Nat.eqb_spec (List.length gs) 6) as [E | E]; [now left |].
  destruct (resolve_guess table col (guess rq)) as [g | e] eqn:Hres; [| now left].
  destruct (has_guessed rq) eqn:Hsub; simpl; [| now left].
  destruct (mem g gs) eqn:Hdup; [now left |].
  right. exists g, infos. repeat split; assumption.
Qed.

Lemma load_session_Ok (gdf : list Location) (st st1 : SessionState)
    (rq : Request) (t : Z) (table : list Scored) (gs : list Z) :
  load_session gdf st rq = Ok (st1, (t, table, gs)) ->
  random_location st1 = Some t /\ all_locations st1 = Some table /\
  guesses st1 = Some gs /\
  (st1 = st \/
   (random_location st = None /\ gs = [] /\ random_row rq = Some t /\
    get_distances gdf t = Ok table)).
Proof.
  unfold load_session.
  destruct (random_location st) as [f |] eqn:Hrl.
  - destruct (guesses st) as [gs0 |] eqn:Hg; [| discriminate].
    destruct (all_locations st) as [tb |] eqn:Ha; [| discriminate].
    intros H. injection H as <- <- <- <-. tauto.
  - destruct (random_row rq) as [f |]; [| discriminate].
    destruct (get_distances gdf f) as [tb | e] eqn:Hgd; [| discriminate].
    simpl. intros H. injection H as <- <- <- <-. simpl. tauto.
Qed.

Lemma load_session_inv (gdf : list Location) (st st1 : SessionState)
    (rq : Request) (t : Z) (table : list Scored) (gs : list Z) :
  session_inv gdf st ->
  load_session gdf st rq = Ok (st1, (t, table, gs)) ->
  session_inv gdf st1.
Proof.
  intros Hinv H.
  destruct (load_session_Ok _ _ _ _ _ _ _ H) as (Hrl & Ha & Hg & [-> | Hnew]);
    [exact Hinv |].
  destruct Hnew as (_ & -> & _ & Hgd).
  split.
  - intros gs0 Hgs0. rewrite Hg in Hgs0. injection Hgs0 as <-. simpl. lia.
  - intros t0 Ht0. rewrite Hrl in Ht0. injection Ht0 as <-.
    exists table, []. repeat split; try assumption; constructor.
Qed.

Lemma main_inv (gdf : list Location) (st : SessionState) (rq : Request) :
  session_inv gdf st -> session_inv gdf (fst (main gdf st rq)).
Proof.
  intros Hinv. unfold main.
  destruct (select_locale_col _ _) as [col | e]; [| exact Hinv].
  destruct (load_session gdf st rq) as [[st1 [[t table] gs]] | e] eqn:Hload;
    [| exact Hinv].
  pose proof (load_session_inv _ _ _ _ _ _ _ Hinv Hload) as Hinv1.
  destruct (load_session_Ok _ _ _ _ _ _ _ Hload) as (Hrl & Ha & Hg & _).
  destruct (play col t table gs rq) as [gs' page] eqn:Hplay. simpl.
  destruct (play_guesses col t table gs rq) as [Hsame | Happ].
  - rewrite Hplay in Hsame. simpl in Hsame. subst gs'.
    now rewrite set_guesses_same.
  - destruct Happ as (g & infos & Hp & Hwon & Hlen & Hres & _ & Hdup).
    rewrite Hplay in Hp. injection Hp as -> _.
    destruct Hinv1 as [Hlen1 Hses1].
    destruct (Hses1 t Hrl) as (table' & gs0 & Ha' & Hg' & Hgd & Hall & Hnd).
    rewrite Ha in Ha'. injection Ha' as <-.
    rewrite Hg in Hg'. injection Hg' as <-.
    pose proof (Hlen1 gs Hg) as Hle.
    split; simpl.
    + intros gs1 H1. injection H1 as <-. rewrite length_app. simpl. lia.
    + intros t1 H1. rewrite Hrl in H1. injection H1 as <-.
      exists table, (gs ++ [g]). repeat split; try assumption.
      * apply Forall_app. split; [exact Hall |].
        constructor; [| constructor]. now apply resolve_guess_label in Hres.
      * apply NoDup_app; [exact Hnd | repeat constructor; simpl; tauto |].
        intros v Hv [<- | []]. apply mem_false in Hdup. tauto.
Qed.

Lemma on_reset_inv (gdf : list Location) (st st' : SessionState) :
  session_inv gdf st -> on_reset st = Ok st' -> session_inv gdf st'.
Proof.
  intros [Hlen _]. unfold on_reset.
  destruct (random_location st); [| discriminate].
  intros H. injection H as <-. split; simpl; [exact Hlen | discriminate].
Qed.

Lemma reachable_inv (gdf : list Location) (st : SessionState) :
  reachable gdf st -> session_inv gdf st.
Proof.
  induction 1 as [| st rq _ IH | st st' _ IH Hreset].
  - split; simpl; discriminate.
  - now apply main_inv.
  - now apply (on_reset_inv gdf st).
Qed.

(** ** One run on a stored session *)

Lemma main_resume (gdf : list Location) (st : SessionState) (rq : Request)
    (t : Z) (table : list Scored) (gs : list Z) (col : string) :
  random_location st = Some t -> all_locations st = Some table ->
  guesses st = Some gs ->
  select_locale_col (query_locales rq) (locale_held rq) = Ok col ->
  main gdf st rq
  = (set_guesses st (fst (play col t table gs rq)), snd (play col t table gs rq)).
Proof.
  intros Hrl Ha Hg Hcol. unfold main, load_session.
  rewrite Hcol, Hrl, Hg, Ha. now destruct (play col t table gs rq).
Qed.

Lemma py_div_MAX_DISTANCE (d : R) : py_div d MAX_DISTANCE = Ok (d / MAX_DISTANCE).
Proof.
  unfold py_div. pose proof MAX_DISTANCE_pos.
  destruct (Req_EM_T MAX_DISTANCE 0); [lra | reflexivity].
Qed.

Section WellFormedTable.

Variable gdf : list Location.
Variable t : Z.
Variable table : list Scored.
Variable col : string.

Hypothesis table_built : get_distances gdf t = Ok table.
Hypothesis col_exists : has_column col = true.
Hypothesis fid_unique : NoDup (map fid gdf).

Lemma table_labels : map label table = map fid gdf.
Proof.
  destruct (get_distances_Ok _ _ _ table_built) as (tr & _ & ->).
  apply map_label_score.
Qed.

Lemma target_row_found : exists r, loc label table t = Ok r.
Proof.
  destruct (get_distances_Ok _ _ _ table_built) as (tr & Hloc & ->).
  exists (score tr tr). rewrite loc_map.
  change (fun a : Location => label (score tr a)) with (fun a : Location => fid a).
  change (loc (fun a : Location => fid a) gdf t) with (loc fid gdf t).
  now rewrite Hloc.
Qed.

Lemma target_labelled : has_label label table t = true.
Proof. destruct target_row_found as [r Hr]. now apply loc_has_label in Hr. Qed.

Lemma display_guess_Ok (g : Z) :
  has_label label table g = true ->
  exists row,
    loc label table g = Ok row /\
    display_guess table col g
    = Ok {| display_guess_name := names (location row) col;
            info_distance := distance row;
            info_direction := direction row;
            info_icon := prox_icon_of ((1 - distance row / MAX_DISTANCE) * 100);
            distance_percentage := (1 - distance row / MAX_DISTANCE) * 100 |}.
Proof.
  intros Hg. apply has_label_In in Hg. apply in_map_iff in Hg as (row & <- & Hin).
  exists row.
  assert (Hloc : loc label table (label row) = Ok row).
  { apply loc_unique; [| exact Hin]. rewrite table_labels. exact fid_unique. }
  split; [exact Hloc |].
  unfold display_guess. rewrite Hloc. simpl.
  rewrite col_exists, py_div_MAX_DISTANCE. reflexivity.
Qed.

Lemma display_rows_Ok (l : list Z) :
  Forall (fun g => has_label label table g = true) l ->
  exists infos, apply_rows (display_guess table col) l = Ok infos.
Proof.
  induction l as [| g l IH]; simpl; intros Hl; [eauto |].
  inversion Hl as [| ? ? Hg Hrest]; subst.
  destruct (display_guess_Ok g Hg) as (row & _ & ->). simpl.
  destruct (IH Hrest) as [infos ->]. simpl. eauto.
Qed.

Variable gs : list Z.
Hypothesis guesses_labelled : Forall (fun g => has_label label table g = true) gs.

Lemma loc_all_guesses : loc_all label table gs = Ok tt.
Proof.
  unfold loc_all.
  replace (forallb (has_label label table) gs) with true; [reflexivity |].
  symmetry. apply forallb_forall. now apply Forall_forall.
Qed.

Lemma hint_maps_Ok (rq : Request) : hint_maps table t gs rq = Ok tt.
Proof.
  unfold hint_maps.
  destruct (show_guesses_on_map rq || show_on_map rq); [| reflexivity].
  destruct (0 <? _)%nat; [| reflexivity].
  destruct (show_on_map rq); [| apply loc_all_guesses].
  unfold loc_all.
  replace (forallb (has_label label table) (gs ++ [t])) with true;
    [reflexivity |].
  symmetry. apply forallb_forall. intros g Hg.
  apply in_app_or in Hg as [Hg | [<- | []]].
  - revert g Hg. now apply Forall_forall.
  - apply target_labelled.
Qed.

Lemma play_won (rq : Request) :
  mem t gs = true ->
  exists header, play col t table gs rq = (gs, Ok (PageWon header)).
Proof.
  intros Hwon. unfold play.
  rewrite target_labelled, Hwon. simpl.
  destruct target_row_found as [r ->]. simpl.
  rewrite col_exists, loc_all_guesses. simpl. eauto.
Qed.

Lemma play_lost (rq : Request) :
  mem t gs = false -> List.length gs = 6%nat ->
  exists infos, play col t table gs rq = (gs, Ok (PageLost infos)).
Proof.
  intros Hwon Hlen. unfold play.
  rewrite target_labelled, Hwon, hint_maps_Ok. simpl.
  destruct (display_rows_Ok gs guesses_labelled) as [infos ->].
  rewrite Hlen. simpl. eauto.
Qed.

Lemma play_active (rq : Request) :
  mem t gs = false -> List.length gs <> 6%nat ->
  exists infos,
    play col t table gs rq
    = match resolve_guess table col (guess rq) with
      | Raise e => (gs, Raise e)
      | Ok guess_fid =>
          if negb (has_guessed rq) || mem guess_fid gs
          then (gs, Ok (PageWarning infos))
          else (gs ++ [guess_fid], Ok (PageRerun infos))
      end.
Proof.
  intros Hwon Hlen. unfold play.
  rewrite target_labelled, Hwon, hint_maps_Ok. simpl.
  destruct (display_rows_Ok gs guesses_labelled) as [infos ->].
  apply Nat.eqb_neq in Hlen. rewrite Hlen. eauto.
Qed.

End WellFormedTable.

(* ===================================================================== *)
(** * The claims: geodesy and the distance table *)
(* ===================================================================== *)

(** C5.  [haversine] of a point with itself returns 0, and [haversine] is
    symmetric in its two points.  Proved for all real coordinates and both
    units, hence for every valid latitude and longitude. *)
Theorem haversine_zero_and_symmetric :
  forall (lat1 lon1 lat2 lon2 : R) (units : string),
    haversine lat1 lon1 lat1 lon1 units = Ok 0 /\
    haversine lat1 lon1 lat2 lon2 units = haversine lat2 lon2 lat1 lon1 units.
Proof.
  intros lat1 lon1 lat2 lon2 units. rewrite !haversine_value. split.
  - now rewrite great_circle_same.
  - now rewrite great_circle_sym.
Qed.

(** C4.  For a target id of a catalog with unique ids, [get_distances]
    returns a table whose rows are the catalog's rows in catalog order;
    every row's distance is what [haversine] returns from the row's centroid
    to the target's centroid, its direction is
    [degrees (atan2 (lon2 - lon1) (lat2 - lat1))] from the row's centroid
    to the target's, and the target's own row has distance 0. *)
Theorem get_distances_table :
  forall (gdf : list Location) (target : Z),
    NoDup (map fid gdf) -> In target (map fid gdf) ->
    exists target_row table,
      In target_row gdf /\ fid target_row = target /\
      get_distances gdf target = Ok table /\
      map location table = gdf /\
      (forall row, In row table ->
         haversine (y (centroid (location row))) (x (centroid (location row)))
                   (y (centroid target_row)) (x (centroid target_row)) "km"
         = Ok (distance row) /\
         direction row
         = degrees (atan2 (x (centroid target_row) - x (centroid (location row)))
                          (y (centroid target_row) - y (centroid (location row))))) /\
      (forall row, In row table -> label row = target -> distance row = 0).
Proof.
  intros gdf target Hnd Hin.
  apply in_map_iff in Hin as (target_row & <- & Hin).
  pose proof (loc_unique fid gdf target_row Hnd Hin) as Hloc.
  exists target_row, (map (score target_row) gdf).
  split; [exact Hin |]. split; [reflexivity |].
  split; [now apply get_distances_value |].
  split; [apply map_location_score |].
  split.
  - intros row Hrow. apply in_map_iff in Hrow as (r & <- & _). simpl.
    rewrite haversine_value. split; reflexivity.
  - intros row Hrow Hlabel. apply in_map_iff in Hrow as (r & <- & Hr).
    unfold label in Hlabel. simpl in *.
    assert (r = target_row) as ->.
    { pose proof (loc_unique fid gdf r Hnd Hr) as Hr'.
      rewrite Hlabel, Hloc in Hr'. now injection Hr'. }
    apply great_circle_same.
Qed.

Lemma get_distances_table_witness :
  NoDup (map fid example_catalog) /\ In 1%Z (map fid example_catalog) /\
  exists table,
    get_distances example_catalog 1 = Ok table /\
    map location table = example_catalog /\
    (forall row, In row table -> label row = 1%Z -> distance row = 0).
Proof.
  assert (Hin : In 1%Z (map fid example_catalog)) by (left; reflexivity).
  split; [exact example_fid_unique |]. split; [exact Hin |].
  destruct (get_distances_table example_catalog 1 example_fid_unique Hin)
    as (target_row & table & _ & _ & Hgd & Horder & _ & Hzero).
  exists table. split; [exact Hgd |]. split; [exact Horder | exact Hzero].
Defined.

(** ** Proximity *)

Lemma Int_part_bounds (v : R) : IZR (Int_part v) <= v < IZR (Int_part v) + 1.
Proof. pose proof (base_Int_part v). lra. Qed.

Lemma py_int_nonneg (v : R) : 0 <= v -> IZR (py_int v) <= v < IZR (py_int v) + 1.
Proof.
  intros Hv. unfold py_int. destruct (Rle_dec 0 v); [| lra].
  apply Int_part_bounds.
Qed.

Lemma py_int_neg (v : R) : v < 0 -> (py_int v <= 0)%Z.
Proof.
  intros Hv. unfold py_int. destruct (Rle_dec 0 v); [lra |].
  pose proof (Int_part_bounds (- v)) as [_ Hu].
  assert (IZR (-1) < IZR (Int_part (- v))) as Hlt by lra.
  apply lt_IZR in Hlt. lia.
Qed.

(** The three tiers as thresholds on the percentage itself: the code
    compares the integer part, so the silver tier starts at 51. *)
Lemma prox_icon_thresholds (pct : R) :
  pct <= 100 ->
  (prox_icon_of pct = Gold <-> pct = 100) /\
  (prox_icon_of pct = Silver <-> 51 <= pct < 100) /\
  (prox_icon_of pct = Bronze <-> pct < 51).
Proof.
  intros Hle. unfold prox_icon_of.
  destruct (Rle_lt_dec 0 pct) as [Hpos | Hneg].
  - pose proof (py_int_nonneg pct Hpos) as [Hl Hu].
    set (n := py_int pct) in *.
    destruct (Z.eqb_spec n 100) as [E | E].
    + rewrite E in Hl. assert (pct = 100) by lra.
      repeat split; intros; try easy; lra.
    + assert (pct <> 100) as Hne.
      { intros ->. apply E.
        assert (IZR n < IZR 101) as H1 by lra. apply lt_IZR in H1.
        assert (IZR 99 < IZR n) as H2 by lra. apply lt_IZR in H2. lia. }
      rewrite Z.gtb_ltb. destruct (Z.ltb_spec 50 n) as [G | G].
      * assert (51 <= n)%Z as G' by lia. apply IZR_le in G'.
        repeat split; intros; try easy; lra.
      * apply IZR_le in G.
        repeat split; intros; try easy; lra.
  - pose proof (py_int_neg pct Hneg) as Hn.
    destruct (Z.eqb_spec (py_int pct) 100) as [E | E]; [lia |].
    rewrite Z.gtb_ltb. destruct (Z.ltb_spec 50 (py_int pct)) as [G | G]; [lia |].
    repeat split; intros; try easy; lra.
Qed.

(** On the equator, from longitude [lon] to longitude 0, the great-circle
    distance is the arc [radians lon * r]. *)
Lemma great_circle_equator (r lon : R) :
  0 <= lon <= 180 -> great_circle r 0 lon 0 0 = radians lon * r.
Proof.
  intros [H0 H1]. unfold great_circle, hav_a.
  replace (radians 0) with 0 by (unfold radians; lra).
  replace ((0 - 0) / 2) with 0 by lra.
  replace ((0 - radians lon) / 2) with (- (radians lon / 2)) by lra.
  rewrite sin_0, cos_0, sin_neg.
  replace (0 ^ 2 + 1 * 1 * (- sin (radians lon / 2)) ^ 2)
    with ((sin (radians lon / 2))²) by (unfold Rsqr; simpl; ring).
  pose proof PI_RGT_0 as Hpi.
  assert (0 <= radians lon / 2 <= PI / 2) as [Ha Hb].
  { unfold radians. split; nra. }
  rewrite sqrt_Rsqr by (apply sin_ge_0; lra).
  rewrite asin_sin by lra. field.
Qed.

(** The distances of the specification's scenario: target A at (0, 0), B at
    longitude 90, C at longitude 180. *)
Example scenario_distances :
  haversine 0 0 0 0 "km" = Ok 0 /\
  haversine 0 90 0 0 "km" = Ok (PI / 2 * 6371) /\
  haversine 0 180 0 0 "km" = Ok MAX_DISTANCE.
Proof.
  rewrite !haversine_value. unfold radius. simpl String.eqb. cbv iota.
  rewrite great_circle_same, !great_circle_equator by lra.
  rewrite MAX_DISTANCE_value. unfold radians.
  pose proof PI_RGT_0. repeat split; f_equal; field.
Qed.

Example locale_index_fr : locale_index_of (Some ["fr"]) = Ok 5%nat.
Proof. reflexivity. Qed.

Example locale_index_unknown : locale_index_of (Some ["tlh"]) = Ok 3%nat.
Proof. reflexivity. Qed.

Example resolve_example : resolve_guess example_table "name_fr" "C" = Ok 3%Z.
Proof. reflexivity. Qed.

(** C6 (amended).  Every displayed guess line carries the proximity
    [(1 - distance / MAX_DISTANCE) * 100], where [MAX_DISTANCE] is what
    [haversine 0 0 180 0 "km"] returns.  The tier is taken from the integer
    part of the percentage: gold exactly at 100, silver from 51 up to (not
    including) 100, bronze below 51. *)
Theorem proximity_display :
  forall (gdf : list Location) (t : Z) (table : list Scored) (col : string)
         (g : Z) (info : GuessInfo),
    get_distances gdf t = Ok table ->
    display_guess table col g = Ok info ->
    exists row,
      loc label table g = Ok row /\
      haversine 0 0 180 0 "km" = Ok MAX_DISTANCE /\
      distance_percentage info = (1 - distance row / MAX_DISTANCE) * 100 /\
      (info_icon info = Gold <-> distance_percentage info = 100) /\
      (info_icon info = Silver <-> 51 <= distance_percentage info < 100) /\
      (info_icon info = Bronze <-> distance_percentage info < 51).
Proof.
  intros gdf t table col g info Hgd Hdisp.
  unfold display_guess in Hdisp.
  destruct (loc label table g) as [row | e] eqn:Hloc; [| discriminate].
  simpl in Hdisp. destruct (has_column col); [| discriminate].
  rewrite py_div_MAX_DISTANCE in Hdisp. simpl in Hdisp.
  injection Hdisp as <-. simpl.
  exists row. split; [reflexivity |].
  split.
  { fold MAX_DISTANCE_load. rewrite MAX_DISTANCE_loaded.
    now rewrite MAX_DISTANCE_value. }
  split; [reflexivity |].
  apply prox_icon_thresholds.
  destruct (get_distances_Ok _ _ _ Hgd) as (tr & _ & ->).
  apply loc_Ok in Hloc as [Hin _].
  apply in_map_iff in Hin as (r & <- & _). simpl.
  pose proof (great_circle_nonneg 6371 (y (centroid r)) (x (centroid r))
                (y (centroid tr)) (x (centroid tr))) as [Hd _]; [lra |].
  pose proof MAX_DISTANCE_pos as HM.
  assert (0 <= great_circle 6371 (y (centroid r)) (x (centroid r))
                 (y (centroid tr)) (x (centroid tr)) / MAX_DISTANCE).
  { apply Rmult_le_pos; [exact Hd |]. left. now apply Rinv_0_lt_compat. }
  lra.
Qed.

Lemma proximity_display_witness :
  exists info,
    get_distances example_catalog 1 = Ok example_table /\
    display_guess example_table "name_en" 2 = Ok info /\
    exists row,
      loc label example_table 2 = Ok row /\
      haversine 0 0 180 0 "km" = Ok MAX_DISTANCE /\
      distance_percentage info = (1 - distance row / MAX_DISTANCE) * 100 /\
      (info_icon info = Gold <-> distance_percentage info = 100) /\
      (info_icon info = Silver <-> 51 <= distance_percentage info < 100) /\
      (info_icon info = Bronze <-> distance_percentage info < 51).
Proof.
  destruct (display_guess_Ok example_catalog 1 example_table "name_en"
              example_table_built eq_refl example_fid_unique 2 eq_refl)
    as (row & _ & Hdisp).
  eexists. split; [exact example_table_built |].
  split; [exact Hdisp |].
  exact (proximity_display example_catalog 1 example_table "name_en" 2 _
           example_table_built Hdisp).
Defined.

(** C6, as stated, fails: a guess whose proximity is 50.5% lies above 50%
    and is shown with the bronze icon. *)
Lemma silver_above_50_counterexample :
  exists table info,
    get_distances half_way_catalog 1 = Ok table /\
    display_guess table "name_en" 2 = Ok info /\
    50 < distance_percentage info /\
    info_icon info = Bronze.
Proof.
  pose (A := country 1 "A" 0 0). pose (B := country 2 "B" 0 (891 / 10)).
  assert (Hgd : get_distances half_way_catalog 1 = Ok (map (score A) half_way_catalog))
    by (apply get_distances_value; reflexivity).
  assert (Hnd : NoDup (map fid half_way_catalog))
    by (simpl; repeat constructor; simpl; intuition lia).
  destruct (display_guess_Ok half_way_catalog 1 _ "name_en" Hgd eq_refl Hnd 2 eq_refl)
    as (row & Hloc & Hdisp).
  assert (row = score A B) as ->.
  { assert (E : loc label (map (score A) half_way_catalog) 2 = Ok (score A B))
      by reflexivity.
    rewrite E in Hloc. now injection Hloc. }
  eexists. eexists. split; [exact Hgd |]. split; [exact Hdisp |].
  cbn [distance_percentage info_icon].
  assert (Hpct : (1 - distance (score A B) / MAX_DISTANCE) * 100 = 505 / 10).
  { unfold score, A, B, country. cbn [distance centroid x y].
    rewrite great_circle_equator by lra.
    rewrite MAX_DISTANCE_value. unfold radians.
    pose proof PI_RGT_0. field. lra. }
  rewrite Hpct. split; [lra |].
  apply prox_icon_thresholds; lra.
Qed.

(** ** Building sessions *)

(** What a reachable session with a stored target provides. *)
Lemma reachable_session (gdf : list Location) (st : SessionState) (t : Z)
    (table : list Scored) (gs : list Z) :
  reachable gdf st ->
  random_location st = Some t -> all_locations st = Some table ->
  guesses st = Some gs ->
  get_distances gdf t = Ok table /\
  Forall (fun g => has_label label table g = true) gs /\
  NoDup gs /\ (List.length gs <= 6)%nat.
Proof.
  intros Hreach Hrl Ha Hg.
  destruct (reachable_inv _ _ Hreach) as [Hlen Hses].
  destruct (Hses t Hrl) as (table' & gs' & Ha' & Hg' & Hgd & Hall & Hnd).
  rewrite Ha in Ha'. injection Ha' as <-.
  rewrite Hg in Hg'. injection Hg' as <-.
  repeat split; try assumption. now apply Hlen.
Qed.

Lemma main_new (gdf : list Location) (st : SessionState) (rq : Request)
    (t : Z) (table : list Scored) (col : string) :
  random_location st = None -> random_row rq = Some t ->
  get_distances gdf t = Ok table ->
  select_locale_col (query_locales rq) (locale_held rq) = Ok col ->
  main gdf st rq
  = (session t table (fst (play col t table [] rq)),
     snd (play col t table [] rq)).
Proof.
  intros Hrl Hrow Hgd Hcol. unfold main, load_session.
  rewrite Hcol, Hrl, Hrow, Hgd. simpl.
  now destruct (play col t table [] rq).
Qed.

Lemma reachable_new (gdf : list Location) (t : Z) (table : list Scored) :
  get_distances gdf t = Ok table -> reachable gdf (session t table []).
Proof.
  intros Hgd.
  pose proof (reach_run gdf no_session (rerender t) (reach_start gdf)) as H.
  rewrite (main_new gdf no_session (rerender t) t table "name_en"
             eq_refl eq_refl Hgd eq_refl) in H.
  simpl fst in H.
  destruct (play_guesses "name_en" t table [] (rerender t)) as [Hsame | Happ].
  - now rewrite Hsame in H.
  - destruct Happ as (g & infos & _ & _ & _ & _ & Hsub & _). discriminate.
Qed.

Lemma main_submit (gdf : list Location) (st : SessionState) (rq : Request)
    (t : Z) (table : list Scored) (gs : list Z) (col : string) (g : Z) :
  NoDup (map fid gdf) -> reachable gdf st ->
  random_location st = Some t -> all_locations st = Some table ->
  guesses st = Some gs ->
  select_locale_col (query_locales rq) (locale_held rq) = Ok col ->
  has_column col = true ->
  mem t gs = false -> List.length gs <> 6%nat ->
  resolve_guess table col (guess rq) = Ok g ->
  exists infos,
    main gdf st rq
    = if negb (has_guessed rq) || mem g gs
      then (st, Ok (PageWarning infos))
      else (set_guesses st (gs ++ [g]), Ok (PageRerun infos)).
Proof.
  intros Hnd Hreach Hrl Ha Hg Hcol Hhas Hwon Hlen Hres.
  destruct (reachable_session _ _ _ _ _ Hreach Hrl Ha Hg) as (Hgd & Hall & _ & _).
  rewrite (main_resume _ _ _ _ _ _ _ Hrl Ha Hg Hcol).
  destruct (play_active gdf t table col Hgd Hhas Hnd gs Hall rq Hwon Hlen)
    as [infos ->].
  rewrite Hres. exists infos.
  destruct (negb (has_guessed rq) || mem g gs); simpl; [| reflexivity].
  now rewrite set_guesses_same.
Qed.

Lemma example_step (gs : list Z) (n : string) (g : Z) :
  reachable example_catalog (example_session gs) ->
  mem 1 gs = false -> (List.length gs =? 6)%nat = false ->
  resolve_guess example_table "name_en" n = Ok g ->
  mem g gs = false ->
  reachable example_catalog (example_session (gs ++ [g])).
Proof.
  intros Hreach Hwon Hlen Hres Hdup.
  pose proof (reach_run _ _ (submit n) Hreach) as H.
  destruct (main_submit example_catalog (example_session gs) (submit n)
              1 example_table gs "name_en" g example_fid_unique Hreach
              eq_refl eq_refl eq_refl eq_refl eq_refl Hwon
              (proj1 (Nat.eqb_neq _ _) Hlen) Hres) as [infos Hmain].
  rewrite Hmain in H. simpl has_guessed in H. rewrite Hdup in H. exact H.
Qed.

Lemma example_reachable_5 :
  reachable example_catalog (example_session [2; 3; 4; 5; 6]%Z).
Proof.
  apply (example_step [2; 3; 4; 5]%Z "F" 6); try reflexivity.
  apply (example_step [2; 3; 4]%Z "E" 5); try reflexivity.
  apply (example_step [2; 3]%Z "D" 4); try reflexivity.
  apply (example_step [2%Z] "C" 3); try reflexivity.
  apply (example_step [] "B" 2); try reflexivity.
  exact (reachable_new _ _ _ example_table_built).
Qed.

Lemma example_reachable_lost :
  reachable example_catalog (example_session [2; 3; 4; 5; 6; 7]%Z).
Proof.
  apply (example_step [2; 3; 4; 5; 6]%Z "G" 7); try reflexivity.
  exact example_reachable_5.
Qed.

Lemma example_reachable_won :
  reachable example_catalog (example_session [2; 3; 4; 5; 6; 1]%Z).
Proof.
  apply (example_step [2; 3; 4; 5; 6]%Z "A" 1); try reflexivity.
  exact example_reachable_5.
Qed.

(** ** Runs that leave the session as it is *)

Lemma main_guesses_same (gdf : list Location) (st : SessionState) (rq : Request)
    (t : Z) (table : list Scored) (gs : list Z) (col : string) :
  random_location st = Some t -> all_locations st = Some table ->
  guesses st = Some gs ->
  select_locale_col (query_locales rq) (locale_held rq) = Ok col ->
  fst (play col t table gs rq) = gs ->
  main gdf st rq = (st, snd (play col t table gs rq)).
Proof.
  intros Hrl Ha Hg Hcol Hsame.
  rewrite (main_resume _ _ _ _ _ _ _ Hrl Ha Hg Hcol), Hsame.
  now rewrite set_guesses_same.
Qed.

(** A stored session is changed by a run only through an append. *)
Lemma main_stored (gdf : list Location) (st : SessionState) (rq : Request)
    (t : Z) (table : list Scored) (gs : list Z) :
  random_location st = Some t -> all_locations st = Some table ->
  guesses st = Some gs ->
  fst (main gdf st rq) = st \/
  exists col g,
    select_locale_col (query_locales rq) (locale_held rq) = Ok col /\
    fst (main gdf st rq) = session t table (gs ++ [g]) /\
    mem t gs = false /\ List.length gs <> 6%nat /\
    resolve_guess table col (guess rq) = Ok g /\
    has_guessed rq = true /\ mem g gs = false.
Proof.
  intros Hrl Ha Hg.
  destruct (select_locale_col (query_locales rq) (locale_held rq))
    as [col | e] eqn:Hcol.
  - destruct (play_guesses col t table gs rq) as [Hsame | Happ].
    + left. now rewrite (main_guesses_same _ _ _ _ _ _ _ Hrl Ha Hg Hcol Hsame).
    + right. destruct Happ as (g & infos & Hp & Hrest).
      exists col, g. split; [reflexivity |]. split; [| exact Hrest].
      rewrite (main_resume _ _ _ _ _ _ _ Hrl Ha Hg Hcol), Hp. simpl.
      unfold set_guesses, session. now rewrite Hrl, Ha.
  - left. unfold main. now rewrite Hcol.
Qed.

Lemma main_duplicate (gdf : list Location) (st : SessionState) (rq : Request)
    (t : Z) (table : list Scored) (gs : list Z) (col : string) (g : Z) :
  random_location st = Some t -> all_locations st = Some table ->
  guesses st = Some gs ->
  select_locale_col (query_locales rq) (locale_held rq) = Ok col ->
  resolve_guess table col (guess rq) = Ok g -> In g gs ->
  fst (main gdf st rq) = st.
Proof.
  intros Hrl Ha Hg Hcol Hres Hin.
  destruct (main_stored gdf st rq t table gs Hrl Ha Hg) as [H | H]; [exact H |].
  destruct H as (col' & g' & Hcol' & _ & _ & _ & Hres' & _ & Hdup).
  rewrite Hcol in Hcol'. injection Hcol' as <-.
  rewrite Hres in Hres'. injection Hres' as <-.
  apply mem_false in Hdup. contradiction.
Qed.

Lemma play_lost_only (col : string) (t : Z) (table : list Scored) (gs gs' : list Z)
    (rq : Request) (infos : list GuessInfo) :
  play col t table gs rq = (gs', Ok (PageLost infos)) ->
  mem t gs = false /\ List.length gs = 6%nat.
Proof.
  unfold play.
  destruct (has_label label table t); simpl; [| discriminate].
  destruct (mem t gs) eqn:Hwon.
  - destruct (loc label table t); simpl; [| discriminate].
    destruct (has_column col); [| discriminate].
    destruct (loc_all label table gs); simpl; discriminate.
  - destruct (hint_maps table t gs rq); [| discriminate].
    destruct (apply_rows (display_guess table col) gs); [| discriminate].
    destruct (Nat.eqb_spec (List.length gs) 6) as [E | E].
    + intros _. split; [reflexivity | exact E].
    + destruct (resolve_guess table col (guess rq)) as [g | e]; [| discriminate].
      destruct (negb (has_guessed rq) || mem g gs); discriminate.
Qed.

Lemma main_lost_only (gdf : list Location) (st : SessionState) (rq : Request)
    (infos : list GuessInfo) :
  snd (main gdf st rq) = Ok (PageLost infos) ->
  exists t gs,
    random_location st = Some t /\ guesses st = Some gs /\
    mem t gs = false /\ List.length gs = 6%nat.
Proof.
  unfold main.
  destruct (select_locale_col _ _) as [col | e]; [| discriminate].
  destruct (load_session gdf st rq) as [[st1 [[t table] gs]] | e] eqn:Hload;
    [| discriminate].
  destruct (play col t table gs rq) as [gs' page] eqn:Hplay. simpl.
  intros ->. apply play_lost_only in Hplay as [Hwon Hlen].
  destruct (load_session_Ok _ _ _ _ _ _ _ Hload) as (Hrl & _ & Hg & [-> | Hnew]).
  - exists t, gs. tauto.
  - destruct Hnew as (_ & -> & _). discriminate.
Qed.

(** ** The session claims *)

(** C1.  A reachable session whose six guesses contain the target is shown
    the WON page by every run (with a valid locale column), and is left as
    it is; and whenever a run ends on the LOST page, the win check
    [target in guesses] of that run was false. *)
Theorem win_precedes_loss :
  forall (gdf : list Location) (st : SessionState) (rq : Request)
         (t : Z) (gs : list Z) (col : string),
    reachable gdf st ->
    random_location st = Some t -> guesses st = Some gs ->
    List.length gs = 6%nat -> In t gs ->
    select_locale_col (query_locales rq) (locale_held rq) = Ok col ->
    has_column col = true ->
    (exists header, main gdf st rq = (st, Ok (PageWon header))) /\
    (forall infos, snd (main gdf st rq) <> Ok (PageLost infos)) /\
    (forall st' rq' infos,
        snd (main gdf st' rq') = Ok (PageLost infos) ->
        exists t' gs',
          random_location st' = Some t' /\ guesses st' = Some gs' /\
          ~ In t' gs' /\ List.length gs' = 6%nat).
Proof.
  intros gdf st rq t gs col Hreach Hrl Hg Hlen Hin Hcol Hhas.
  assert (Hwon : exists header, main gdf st rq = (st, Ok (PageWon header))).
  { destruct (reachable_inv _ _ Hreach) as [_ Hses].
    destruct (Hses t Hrl) as (table & gs' & Ha & Hg' & Hgd & Hall & _).
    rewrite Hg in Hg'. injection Hg' as <-.
    apply mem_In in Hin.
    destruct (play_won gdf t table col Hgd Hhas gs Hall rq Hin) as [header Hp].
    exists header.
    rewrite (main_guesses_same _ _ _ _ _ _ _ Hrl Ha Hg Hcol); now rewrite Hp. }
  split; [exact Hwon |]. split.
  - intros infos. destruct Hwon as [header ->]. discriminate.
  - intros st' rq' infos Hlost.
    destruct (main_lost_only _ _ _ _ Hlost) as (t' & gs' & H1 & H2 & H3 & H4).
    exists t', gs'. rewrite <- mem_false. tauto.
Qed.

Lemma win_precedes_loss_witness :
  reachable example_catalog (example_session [2; 3; 4; 5; 6; 1]%Z) /\
  List.length [2; 3; 4; 5; 6; 1]%Z = 6%nat /\ In 1%Z [2; 3; 4; 5; 6; 1]%Z /\
  (exists header,
      main example_catalog (example_session [2; 3; 4; 5; 6; 1]%Z) (submit "B")
      = (example_session [2; 3; 4; 5; 6; 1]%Z, Ok (PageWon header))).
Proof.
  split; [exact example_reachable_won |].
  split; [reflexivity |].
  split; [simpl; intuition lia |].
  exact (proj1 (win_precedes_loss example_catalog
                  (example_session [2; 3; 4; 5; 6; 1]%Z) (submit "B")
                  1 [2; 3; 4; 5; 6; 1]%Z "name_en"
                  example_reachable_won eq_refl eq_refl eq_refl
                  (or_intror (or_intror (or_intror (or_intror (or_intror
                     (or_introl eq_refl))))))
                  eq_refl eq_refl)).
Defined.

(** C2.  In every reachable session the guess list has at most six
    entries.  With six guesses and the target not among them, every run
    leaves the session as it is, whatever is submitted, and (with unique
    catalog ids and a valid locale column) ends on the LOST page. *)
Theorem six_guess_limit :
  forall (gdf : list Location) (st : SessionState),
    reachable gdf st ->
    (forall gs, guesses st = Some gs -> (List.length gs <= 6)%nat) /\
    (forall t gs rq,
        random_location st = Some t -> guesses st = Some gs ->
        List.length gs = 6%nat -> ~ In t gs ->
        fst (main gdf st rq) = st /\
        (forall col,
            NoDup (map fid gdf) ->
            select_locale_col (query_locales rq) (locale_held rq) = Ok col ->
            has_column col = true ->
            exists infos, main gdf st rq = (st, Ok (PageLost infos)))).
Proof.
  intros gdf st Hreach.
  destruct (reachable_inv _ _ Hreach) as [Hlen Hses].
  split; [exact Hlen |].
  intros t gs rq Hrl Hg Hsix Hnotin.
  destruct (Hses t Hrl) as (table & gs' & Ha & Hg' & Hgd & Hall & _).
  rewrite Hg in Hg'. injection Hg' as <-.
  split.
  - destruct (main_stored gdf st rq t table gs Hrl Ha Hg) as [H | H]; [exact H |].
    destruct H as (col & g & _ & _ & _ & Hne & _). contradiction.
  - intros col Hnd Hcol Hhas.
    apply mem_false in Hnotin.
    destruct (play_lost gdf t table col Hgd Hhas Hnd gs Hall rq Hnotin Hsix)
      as [infos Hp].
    exists infos.
    rewrite (main_guesses_same _ _ _ _ _ _ _ Hrl Ha Hg Hcol); now rewrite Hp.
Qed.

Lemma six_guess_limit_witness :
  reachable example_catalog (example_session [2; 3; 4; 5; 6; 7]%Z) /\
  (List.length [2; 3; 4; 5; 6; 7]%Z <= 6)%nat /\
  fst (main example_catalog (example_session [2; 3; 4; 5; 6; 7]%Z) (submit "A"))
  = example_session [2; 3; 4; 5; 6; 7]%Z /\
  (exists infos,
      main example_catalog (example_session [2; 3; 4; 5; 6; 7]%Z) (submit "A")
      = (example_session [2; 3; 4; 5; 6; 7]%Z, Ok (PageLost infos))).
Proof.
  pose proof (six_guess_limit example_catalog
                (example_session [2; 3; 4; 5; 6; 7]%Z) example_reachable_lost)
    as [Hlen Hlost].
  assert (Hnotin : ~ In 1%Z [2; 3; 4; 5; 6; 7]%Z) by (simpl; intuition lia).
  destruct (Hlost 1%Z [2; 3; 4; 5; 6; 7]%Z (submit "A")
              eq_refl eq_refl eq_refl Hnotin) as [Hsame Hpage].
  split; [exact example_reachable_lost |].
  split; [exact (Hlen _ eq_refl) |].
  split; [exact Hsame |].
  exact (Hpage "name_en" example_fid_unique eq_refl eq_refl).
Defined.

(** C3.  On an active session (target not yet guessed, fewer than six
    guesses) a run whose selected name resolves to [g] leaves the session
    unchanged exactly when nothing was submitted or [g] is already among the
    guesses, and then ends on the warning; otherwise it appends [g].  After
    a submission of [g], any further submission resolving to [g] leaves the
    session, and so the length of the guess list, unchanged. *)
Theorem guess_rejection :
  forall (gdf : list Location) (st : SessionState) (rq : Request)
         (t : Z) (table : list Scored) (gs : list Z) (col : string) (g : Z),
    NoDup (map fid gdf) -> reachable gdf st ->
    random_location st = Some t -> all_locations st = Some table ->
    guesses st = Some gs ->
    ~ In t gs -> List.length gs <> 6%nat ->
    select_locale_col (query_locales rq) (locale_held rq) = Ok col ->
    has_column col = true ->
    resolve_guess table col (guess rq) = Ok g ->
    (fst (main gdf st rq) = st <-> has_guessed rq = false \/ In g gs) /\
    (has_guessed rq = false \/ In g gs ->
     exists infos, main gdf st rq = (st, Ok (PageWarning infos))) /\
    (has_guessed rq = true -> ~ In g gs ->
     exists infos,
       main gdf st rq = (session t table (gs ++ [g]), Ok (PageRerun infos))) /\
    (has_guessed rq = true ->
     forall rq2 col2,
       select_locale_col (query_locales rq2) (locale_held rq2) = Ok col2 ->
       resolve_guess table col2 (guess rq2) = Ok g ->
       fst (main gdf (fst (main gdf st rq)) rq2) = fst (main gdf st rq)).
Proof.
  intros gdf st rq t table gs col g Hnd Hreach Hrl Ha Hg Hnotin Hlen Hcol Hhas Hres.
  apply mem_false in Hnotin.
  destruct (main_submit _ _ _ _ _ _ _ _ Hnd Hreach Hrl Ha Hg Hcol Hhas
              Hnotin Hlen Hres) as [infos Hmain].
  assert (Hst : set_guesses st (gs ++ [g]) = session t table (gs ++ [g])).
  { unfold set_guesses, session. now rewrite Hrl, Ha. }
  assert (Hne : session t table (gs ++ [g]) <> st).
  { intros E. rewrite <- E in Hg. simpl in Hg. injection Hg as Hg.
    apply (f_equal (@List.length Z)) in Hg. rewrite length_app in Hg.
    simpl in Hg. lia. }
  destruct (has_guessed rq) eqn:Hsub; simpl in Hmain.
  - destruct (mem g gs) eqn:Hdup.
    + apply mem_In in Hdup. repeat split.
      * intros _. now right.
      * intros _. now rewrite Hmain.
      * intros _. now exists infos.
      * intros _ Hn. contradiction.
      * intros _ rq2 col2 Hcol2 Hres2. rewrite Hmain. simpl.
        exact (main_duplicate _ _ _ _ _ _ _ _ Hrl Ha Hg Hcol2 Hres2 Hdup).
    + apply mem_false in Hdup. rewrite Hst in Hmain. repeat split.
      * rewrite Hmain. simpl. intros E. contradiction.
      * intros [H | H]; [discriminate | contradiction].
      * intros [H | H]; [discriminate | contradiction].
      * intros _ _. now exists infos.
      * intros _ rq2 col2 Hcol2 Hres2. rewrite Hmain. simpl.
        apply (main_duplicate gdf (session t table (gs ++ [g])) rq2 t table
                 (gs ++ [g]) col2 g eq_refl eq_refl eq_refl Hcol2 Hres2).
        apply in_or_app. right. now left.
  - repeat split.
    + intros _. now left.
    + intros _. now rewrite Hmain.
    + intros _. now exists infos.
    + discriminate.
    + discriminate.
Qed.

Lemma guess_rejection_witness :
  reachable example_catalog (example_session [2; 3]%Z) /\
  resolve_guess example_table "name_en" "B" = Ok 2%Z /\
  (exists infos,
      main example_catalog (example_session [2; 3]%Z) (submit "B")
      = (example_session [2; 3]%Z, Ok (PageWarning infos))).
Proof.
  assert (Hreach : reachable example_catalog (example_session [2; 3]%Z)).
  { apply (example_step [2%Z] "C" 3); try reflexivity.
    apply (example_step [] "B" 2); try reflexivity.
    exact (reachable_new _ _ _ example_table_built). }
  assert (Hnotin : ~ In 1%Z [2; 3]%Z) by (simpl; intuition lia).
  assert (Hlen : List.length [2; 3]%Z <> 6%nat) by (simpl; lia).
  split; [exact Hreach |]. split; [reflexivity |].
  exact (proj1 (proj2 (guess_rejection example_catalog
                         (example_session [2; 3]%Z) (submit "B")
                         1 example_table [2; 3]%Z "name_en" 2
                         example_fid_unique Hreach eq_refl eq_refl eq_refl
                         Hnotin Hlen eq_refl eq_refl eq_refl))
               (or_intror (or_introl eq_refl))).
Defined.

(** ** Name resolution *)

Lemma resolve_guess_first (table pre post : list Scored) (r : Scored)
    (col guess : string) :
  has_column col = true ->
  table = pre ++ r :: post ->
  names (location r) col = guess ->
  (forall r', In r' pre -> names (location r') col <> guess) ->
  resolve_guess table col guess = Ok (label r).
Proof.
  intros Hhas -> Hname Hpre. unfold resolve_guess. rewrite Hhas.
  induction pre as [| r0 pre IH]; simpl.
  - apply String.eqb_eq in Hname. now rewrite Hname.
  - assert (names (location r0) col <> guess) as Hne by (apply Hpre; now left).
    apply String.eqb_neq in Hne. rewrite Hne.
    apply IH. intros r' Hr'. apply Hpre. now right.
Qed.

Lemma resolve_guess_none (table : list Scored) (col guess : string) :
  has_column col = true ->
  (forall r, In r table -> names (location r) col <> guess) ->
  resolve_guess table col guess = Raise IndexError.
Proof.
  intros Hhas Hno. unfold resolve_guess. rewrite Hhas.
  induction table as [| r0 table IH]; simpl; [reflexivity |].
  assert (names (location r0) col <> guess) as Hne by (apply Hno; now left).
  apply String.eqb_neq in Hne. rewrite Hne.
  apply IH. intros r Hr. apply Hno. now right.
Qed.

(** Every matching guess has a first matching row. *)
Lemma first_match (table : list Scored) (col guess : string) :
  (exists r, In r table /\ names (location r) col = guess) ->
  exists pre r post,
    table = pre ++ r :: post /\ names (location r) col = guess /\
    (forall r', In r' pre -> names (location r') col <> guess).
Proof.
  induction table as [| r0 table IH]; intros (r & Hin & Hname); [destruct Hin |].
  destruct (String.eqb_spec (names (location r0) col) guess) as [E | E].
  - exists [], r0, table. simpl. tauto.
  - destruct Hin as [-> | Hin]; [contradiction |].
    destruct IH as (pre & r1 & post & -> & Hn & Hpre); [eauto |].
    exists (r0 :: pre), r1, post. simpl. repeat split; try assumption.
    intros r' [<- | Hr']; [exact E | now apply Hpre].
Qed.

Lemma NoDup_split_unique {A B : Type} (f : A -> B) (l1 l2 l3 l4 : list A) (a b : A) :
  NoDup (map f (l1 ++ a :: l2)) ->
  l1 ++ a :: l2 = l3 ++ b :: l4 -> f a = f b ->
  l1 = l3 /\ a = b /\ l2 = l4.
Proof.
  revert l3. induction l1 as [| c l1 IH]; intros [| d l3]; simpl; intros Hnd E Hf.
  - injection E as -> ->. tauto.
  - injection E as -> ->. exfalso.
    inversion Hnd as [| ? ? Hnotin _]; subst. apply Hnotin.
    rewrite Hf, map_app. apply in_or_app. right. now left.
  - injection E as -> <-. exfalso.
    inversion Hnd as [| ? ? Hnotin _]; subst. apply Hnotin.
    rewrite <- Hf, map_app. apply in_or_app. right. now left.
  - injection E as -> E.
    inversion Hnd as [| ? ? _ Hnd']; subst.
    destruct (IH l3 Hnd' E Hf) as (-> & -> & ->). tauto.
Qed.

Lemma shadowed_never_resolved (table pre mid post : list Scored) (r r' : Scored)
    (col guess : string) :
  NoDup (map label table) ->
  table = pre ++ r :: mid ++ r' :: post ->
  names (location r') col = names (location r) col ->
  resolve_guess table col guess <> Ok (label r').
Proof.
  intros Hnd Htab Hname Hres.
  apply resolve_guess_Ok in Hres as (_ & pre0 & r0 & post0 & Htab0 & Hl & Hn & Hpre0).
  assert (E : (pre ++ r :: mid) ++ r' :: post = pre0 ++ r0 :: post0).
  { rewrite <- Htab0, Htab, <- app_assoc. reflexivity. }
  assert (Hnd' : NoDup (map label ((pre ++ r :: mid) ++ r' :: post))).
  { rewrite <- app_assoc. simpl. now rewrite <- Htab. }
  destruct (NoDup_split_unique label _ _ _ _ _ _ Hnd' E (eq_sym Hl))
    as (<- & <- & _).
  apply (Hpre0 r).
  - apply in_or_app. right. now left.
  - now rewrite <- Hname.
Qed.

(** C10.  A submitted name that matches some record resolves to the label
    of the first matching row in table order.  In a table with unique
    labels, a row whose name in the column repeats that of an earlier row
    is never the result of a resolution in that column, and no run with
    that column adds its label to the guesses. *)
Theorem resolve_first_match :
  forall (table : list Scored) (col : string),
    has_column col = true ->
    (forall guess,
        (exists r, In r table /\ names (location r) col = guess) ->
        exists pre r post,
          table = pre ++ r :: post /\
          names (location r) col = guess /\
          (forall r', In r' pre -> names (location r') col <> guess) /\
          resolve_guess table col guess = Ok (label r)) /\
    (NoDup (map label table) ->
     forall pre r mid r' post,
       table = pre ++ r :: mid ++ r' :: post ->
       names (location r') col = names (location r) col ->
       (forall guess, resolve_guess table col guess <> Ok (label r')) /\
       (forall t gs rq,
           ~ In (label r') gs ->
           ~ In (label r') (fst (play col t table gs rq)))).
Proof.
  intros table col Hhas. split.
  - intros guess Hex.
    destruct (first_match table col guess Hex) as (pre & r & post & Htab & Hn & Hpre).
    exists pre, r, post. repeat split; try assumption.
    now apply (resolve_guess_first table pre post).
  - intros Hnd pre r mid r' post Htab Hname.
    assert (Hnever : forall guess, resolve_guess table col guess <> Ok (label r'))
      by (intros guess; now apply (shadowed_never_resolved table pre mid post r r')).
    split; [exact Hnever |].
    intros t gs rq Hnotin Hin.
    destruct (play_guesses col t table gs rq) as [Hsame | Happ].
    + rewrite Hsame in Hin. contradiction.
    + destruct Happ as (g & infos & Hp & _ & _ & Hres & _).
      rewrite Hp in Hin. simpl in Hin.
      apply in_app_or in Hin as [Hin | [E | []]]; [contradiction |].
      apply (Hnever (guess rq)). now rewrite <- E.
Qed.

Lemma resolve_first_match_witness :
  has_column "name_en" = true /\
  resolve_guess homonym_table "name_en" "Georgia" = Ok 2%Z /\
  (forall guess, resolve_guess homonym_table "name_en" guess <> Ok 3%Z).
Proof.
  split; [reflexivity |]. split; [reflexivity |].
  assert (Hnd : NoDup (map label homonym_table)).
  { change (map label homonym_table) with [1; 2; 3]%Z.
    repeat constructor; simpl; intuition lia. }
  exact (proj1 (proj2 (resolve_first_match homonym_table "name_en" eq_refl) Hnd
                  [score (country 1 "Chad" 15 19) (country 1 "Chad" 15 19)]
                  (score (country 1 "Chad" 15 19) (country 2 "Georgia" 42 43))
                  []
                  (score (country 1 "Chad" 15 19) (country 3 "Georgia" 33 (-83)))
                  [] eq_refl eq_refl)).
Defined.

(** C7.  A submitted name that matches no record of the selected column
    does not resolve: the lookup raises [IndexError], the run ends with
    that exception on an active session, and the session is unchanged. *)
Theorem invalid_guess_rejected :
  forall (gdf : list Location) (st : SessionState) (rq : Request)
         (t : Z) (table : list Scored) (gs : list Z) (col : string),
    NoDup (map fid gdf) -> reachable gdf st ->
    random_location st = Some t -> all_locations st = Some table ->
    guesses st = Some gs ->
    select_locale_col (query_locales rq) (locale_held rq) = Ok col ->
    has_column col = true ->
    (forall r, In r table -> names (location r) col <> guess rq) ->
    resolve_guess table col (guess rq) = Raise IndexError /\
    fst (main gdf st rq) = st /\
    (~ In t gs -> List.length gs <> 6%nat ->
     main gdf st rq = (st, Raise IndexError)).
Proof.
  intros gdf st rq t table gs col Hnd Hreach Hrl Ha Hg Hcol Hhas Hno.
  pose proof (resolve_guess_none table col (guess rq) Hhas Hno) as Hres.
  split; [exact Hres |]. split.
  - destruct (main_stored gdf st rq t table gs Hrl Ha Hg) as [H | H]; [exact H |].
    destruct H as (col' & g & Hcol' & _ & _ & _ & Hres' & _).
    rewrite Hcol in Hcol'. injection Hcol' as <-.
    rewrite Hres in Hres'. discriminate.
  - intros Hnotin Hlen. apply mem_false in Hnotin.
    destruct (reachable_session _ _ _ _ _ Hreach Hrl Ha Hg) as (Hgd & Hall & _ & _).
    rewrite (main_resume _ _ _ _ _ _ _ Hrl Ha Hg Hcol).
    destruct (play_active gdf t table col Hgd Hhas Hnd gs Hall rq Hnotin Hlen)
      as [infos ->].
    rewrite Hres. simpl. now rewrite set_guesses_same.
Qed.

Lemma invalid_guess_rejected_witness :
  reachable example_catalog (example_session [2%Z]) /\
  (forall r, In r example_table -> names (location r) "name_en" <> "Atlantis") /\
  resolve_guess example_table "name_en" "Atlantis" = Raise IndexError /\
  main example_catalog (example_session [2%Z]) (submit "Atlantis")
  = (example_session [2%Z], Raise IndexError).
Proof.
  assert (Hreach : reachable example_catalog (example_session [2%Z])).
  { apply (example_step [] "B" 2); try reflexivity.
    exact (reachable_new _ _ _ example_table_built). }
  assert (Hno : forall r, In r example_table ->
                          names (location r) "name_en" <> "Atlantis").
  { intros r Hin E. unfold example_table, example_catalog in Hin.
    simpl in Hin.
    repeat (destruct Hin as [Hin | Hin]; [rewrite <- Hin in E; discriminate E |]).
    exact Hin. }
  assert (Hnotin : ~ In 1%Z [2%Z]) by (simpl; intuition lia).
  assert (Hlen : List.length [2%Z] <> 6%nat) by (simpl; lia).
  pose proof (invalid_guess_rejected example_catalog (example_session [2%Z])
                (submit "Atlantis") 1 example_table [2%Z] "name_en"
                example_fid_unique Hreach eq_refl eq_refl eq_refl
                eq_refl eq_refl Hno) as (Hres & _ & Hmain).
  split; [exact Hreach |]. split; [exact Hno |]. split; [exact Hres |].
  exact (Hmain Hnotin Hlen).
Defined.

(** ** Locale selection *)

Lemma list_index_absent (v : string) (l : list string) :
  ~ In v l -> list_index v l = Raise ValueError.
Proof.
  induction l as [| v' l IH]; simpl; intros Hn; [reflexivity |].
  destruct (String.eqb_spec v' v) as [E | E]; [tauto |].
  rewrite IH by tauto. reflexivity.
Qed.

(** C8.  With the widget not yet set, a locale code of the query string
    that is not a key of [LOCALES] selects the column of the default locale
    ["en"], which is ["name_en"], and nothing is raised; a code that is a
    key selects the column [LOCALES] maps it to.  A missing parameter
    selects the default as well. *)
Theorem locale_selection :
  forall (code : string) (rest : list string),
    (~ In code (keys LOCALES) ->
     select_locale_col (Some (code :: rest)) None
     = Ok (dict_get LOCALES DEFAULT_LOCALE "en") /\
     dict_get LOCALES DEFAULT_LOCALE "en" = "name_en") /\
    (forall col,
        In (code, col) LOCALES ->
        select_locale_col (Some (code :: rest)) None = Ok col) /\
    select_locale_col None None = Ok "name_en".
Proof.
  intros code rest. split; [| split].
  - intros Hn. split; [| reflexivity].
    unfold select_locale_col, locale_index_of.
    rewrite (list_index_absent code (keys LOCALES) Hn). reflexivity.
  - intros col Hin. unfold LOCALES in Hin. simpl in Hin.
    repeat (destruct Hin as [Hin | Hin];
            [injection Hin as <- <-; reflexivity |]).
    destruct Hin.
  - reflexivity.
Qed.

Lemma locale_selection_witness :
  ~ In "xx" (keys LOCALES) /\
  select_locale_col (Some ["xx"]) None = Ok "name_en" /\
  In ("fr", "name_fr") LOCALES /\
  select_locale_col (Some ["fr"]) None = Ok "name_fr".
Proof.
  assert (Hn : ~ In "xx" (keys LOCALES)).
  { simpl. intros H.
    repeat (destruct H as [H | H]; [discriminate H |]). exact H. }
  assert (Hin : In ("fr", "name_fr") LOCALES).
  { unfold LOCALES. do 5 right. left. reflexivity. }
  split; [exact Hn |].
  split; [exact (proj1 (proj1 (locale_selection "xx" []) Hn)) |].
  split; [exact Hin |].
  exact (proj1 (proj2 (locale_selection "fr" [])) "name_fr" Hin).
Defined.

(* ===================================================================== *)
(** * Further properties of the geodesy functions *)
(* ===================================================================== *)

Lemma great_circle_half_turn (r : R) : great_circle r 0 0 180 0 = PI * r.
Proof.
  unfold great_circle, hav_a, radians.
  replace ((180 * (PI / 180) - 0 * (PI / 180)) / 2) with (PI / 2) by field.
  replace ((0 * (PI / 180) - 0 * (PI / 180)) / 2) with 0 by field.
  rewrite sin_PI2, sin_0.
  replace (1 ^ 2 + cos (0 * (PI / 180)) * cos (180 * (PI / 180)) * 0 ^ 2)
    with 1 by (simpl; ring).
  rewrite sqrt_1, asin_1. field.
Qed.

(** X2.  [MAX_DISTANCE] is the largest distance: whatever [haversine]
    returns for two points, in either unit, lies between 0 and what it
    returns for the pair (0, 0), (180, 0), which in kilometres is
    [MAX_DISTANCE]. *)
Theorem haversine_bounded :
  forall (lat1 lon1 lat2 lon2 : R) (units : string) (d : R),
    haversine lat1 lon1 lat2 lon2 units = Ok d ->
    exists m,
      haversine 0 0 180 0 units = Ok m /\
      0 <= d <= m /\
      (units = "km" -> m = MAX_DISTANCE).
Proof.
  intros lat1 lon1 lat2 lon2 units d H.
  rewrite haversine_value in H. injection H as <-.
  exists (PI * radius units).
  split; [rewrite haversine_value; f_equal; apply great_circle_half_turn |].
  split.
  - apply great_circle_nonneg. unfold radius.
    destruct (String.eqb units "km"); lra.
  - intros ->. rewrite MAX_DISTANCE_value. reflexivity.
Qed.

Lemma haversine_bounded_witness :
  haversine 0 90 0 0 "km" = Ok (PI / 2 * 6371) /\
  0 <= PI / 2 * 6371 <= MAX_DISTANCE.
Proof.
  pose proof (proj1 (proj2 scenario_distances)) as H.
  split; [exact H |].
  destruct (haversine_bounded 0 90 0 0 "km" _ H) as (m & _ & Hb & Hkm).
  rewrite <- (Hkm eq_refl). exact Hb.
Defined.

Lemma asin_sqrt_sin_sq (v : R) :
  Rabs v <= PI / 2 -> asin (sqrt (sin v ^ 2)) = Rabs v.
Proof.
  intros Hv.
  replace (sin v ^ 2) with ((sin v)²) by (unfold Rsqr; ring).
  rewrite sqrt_Rsqr_abs.
  pose proof PI_RGT_0 as Hpi.
  unfold Rabs in *. destruct (Rcase_abs v) as [Hneg | Hpos].
  - destruct (Rcase_abs (sin v)) as [Hs | Hs].
    + rewrite <- sin_neg. apply asin_sin. lra.
    + assert (sin v <= 0).
      { rewrite <- (Ropp_involutive v), sin_neg.
        assert (0 <= sin (- v)) by (apply sin_ge_0; lra). lra. }
      replace (sin v) with 0 by lra.
      assert (sin (- v) = 0) as E by (rewrite sin_neg; lra).
      rewrite <- E. apply asin_sin. lra.
  - destruct (Rcase_abs (sin v)) as [Hs | Hs].
    + assert (0 <= sin v) by (apply sin_ge_0; lra). lra.
    + apply asin_sin. lra.
Qed.

Lemma radians_half_abs (v : R) :
  Rabs v <= 180 -> Rabs (radians v / 2) <= PI / 2.
Proof.
  intros Hv. pose proof PI_RGT_0 as Hpi. unfold radians.
  replace (v * (PI / 180) / 2) with (v * (PI / 360)) by field.
  rewrite Rabs_mult, (Rabs_pos_eq (PI / 360)) by lra.
  pose proof (Rabs_pos v). nra.
Qed.

Lemma radians_Rabs (v : R) : radians (Rabs v) = Rabs (radians v).
Proof.
  pose proof PI_RGT_0 as Hpi. unfold radians.
  rewrite Rabs_mult, (Rabs_pos_eq (PI / 180)) by lra. reflexivity.
Qed.

(** X3.  Along a meridian (equal longitudes) and along the equator the distance
    is the arc length: the difference in degrees, in radians, times the
    radius, as long as the difference is at most 180 degrees. *)
Theorem haversine_arc_length :
  forall (a b c : R) (units : string),
    Rabs (b - a) <= 180 ->
    haversine a c b c units
    = Ok (radians (Rabs (b - a)) * (if String.eqb units "km" then 6371 else 3956)) /\
    haversine 0 a 0 b units
    = Ok (radians (Rabs (b - a)) * (if String.eqb units "km" then 6371 else 3956)).
Proof.
  intros a b c units Hab. rewrite !haversine_value.
  unfold great_circle, radius.
  pose proof (radians_half_abs (b - a) Hab) as Hhalf.
  assert (Hsub : radians b - radians a = radians (b - a))
    by (unfold radians; ring).
  assert (Hmer : hav_a (radians a) (radians c) (radians b) (radians c)
                 = sin (radians (b - a) / 2) ^ 2).
  { unfold hav_a. rewrite Hsub.
    replace ((radians c - radians c) / 2) with 0 by field.
    rewrite sin_0. ring. }
  assert (Heq : hav_a (radians 0) (radians a) (radians 0) (radians b)
                = sin (radians (b - a) / 2) ^ 2).
  { unfold hav_a. rewrite Hsub.
    replace (radians 0) with 0 by (unfold radians; ring).
    replace ((0 - 0) / 2) with 0 by field.
    rewrite sin_0, cos_0. ring. }
  rewrite Hmer, Heq, asin_sqrt_sin_sq by exact Hhalf.
  rewrite radians_Rabs.
  replace (Rabs (radians (b - a) / 2)) with (Rabs (radians (b - a)) / 2).
  - split; f_equal; field.
  - unfold Rdiv. rewrite Rabs_mult, (Rabs_pos_eq (/ 2)) by lra. reflexivity.
Qed.

Lemma haversine_arc_length_witness :
  Rabs (60 - 15) <= 180 /\
  haversine 15 7 60 7 "km" = Ok (radians (Rabs (60 - 15)) * 6371).
Proof.
  assert (H : Rabs (60 - 15) <= 180).
  { rewrite Rabs_pos_eq; lra. }
  split; [exact H |].
  exact (proj1 (haversine_arc_length 15 60 7 "km" H)).
Defined.

(** X4.  Only the exact string ["km"] selects kilometres; every other units
    string gives what ["miles"] gives, and whenever the call in kilometres
    returns, that is the kilometre value times the ratio of the radii. *)
Theorem haversine_units :
  forall (lat1 lon1 lat2 lon2 : R) (units : string),
    units <> "km" ->
    haversine lat1 lon1 lat2 lon2 units
    = haversine lat1 lon1 lat2 lon2 "miles" /\
    (forall km,
        haversine lat1 lon1 lat2 lon2 "km" = Ok km ->
        haversine lat1 lon1 lat2 lon2 units = Ok (km * (3956 / 6371))).
Proof.
  intros lat1 lon1 lat2 lon2 units Hne.
  apply String.eqb_neq in Hne. split.
  - rewrite !haversine_value. unfold radius. rewrite Hne. reflexivity.
  - intros km H. rewrite haversine_value in H. injection H as <-.
    rewrite haversine_value. unfold radius. rewrite Hne.
    simpl String.eqb. cbv iota. f_equal. unfold great_circle. field.
Qed.

Lemma haversine_units_witness :
  "KM" <> "km" /\
  haversine 0 0 0 90 "KM" = haversine 0 0 0 90 "miles".
Proof.
  assert (H : "KM" <> "km") by discriminate.
  split; [exact H |].
  exact (proj1 (haversine_units 0 0 0 90 "KM" H)).
Defined.

(** ** The planar bearing *)

Lemma atan_neg (v : R) : v < 0 -> atan v < 0.
Proof. intros Hv. rewrite <- atan_0. now apply atan_increasing. Qed.

Lemma atan_pos (v : R) : 0 < v -> 0 < atan v.
Proof. intros Hv. rewrite <- atan_0. now apply atan_increasing. Qed.

Lemma atan2_range (b a : R) : - PI < atan2 b a <= PI.
Proof.
  pose proof PI_RGT_0 as Hpi. unfold atan2.
  destruct (Rlt_dec 0 a) as [Ha | Ha].
  - pose proof (atan_bound (b / a)). lra.
  - destruct (Rlt_dec a 0) as [Ha' | Ha'].
    + pose proof (atan_bound (b / a)) as [Hl Hu].
      assert (Hinv : / a < 0) by now apply Rinv_lt_0_compat.
      destruct (Rle_dec 0 b) as [Hb | Hb].
      * destruct (Req_dec b 0) as [-> | Hne].
        -- unfold Rdiv. rewrite Rmult_0_l, atan_0. lra.
        -- assert (atan (b / a) < 0) by (apply atan_neg; unfold Rdiv; nra). lra.
      * assert (0 < atan (b / a)) by (apply atan_pos; unfold Rdiv; nra). lra.
    + destruct (Rlt_dec 0 b); [lra |]. destruct (Rlt_dec b 0); lra.
Qed.

Lemma degrees_mono (u v : R) : u < v -> degrees u < degrees v.
Proof.
  intros H. pose proof PI_RGT_0 as Hpi. unfold degrees.
  apply Rmult_lt_compat_r; [| exact H].
  apply Rdiv_lt_0_compat; lra.
Qed.

Lemma degrees_PI : degrees PI = 180.
Proof. unfold degrees. field. apply PI_neq0. Qed.

Lemma degrees_opp (v : R) : degrees (- v) = - degrees v.
Proof. unfold degrees. ring. Qed.

Lemma degrees_atan2_range (b a : R) : -180 <= degrees (atan2 b a) <= 180.
Proof.
  pose proof (atan2_range b a) as [Hl Hu].
  pose proof (degrees_mono _ _ Hl) as Hl'.
  rewrite degrees_opp, degrees_PI in Hl'.
  split; [lra |].
  destruct Hu as [Hu | ->].
  - apply degrees_mono in Hu. rewrite degrees_PI in Hu. lra.
  - rewrite degrees_PI. lra.
Qed.

(** X6.  The bearing is always between -180 and 180 degrees, ends
    included. *)
Theorem bearing_range :
  forall (lat1 lon1 lat2 lon2 : R),
    -180 <= get_flat_earth_bearing lat1 lon1 lat2 lon2 <= 180.
Proof.
  intros lat1 lon1 lat2 lon2. unfold get_flat_earth_bearing.
  apply degrees_atan2_range.
Qed.

(** X7.  The bearing treats latitude and longitude as plane coordinates: it
    is 0 towards a larger latitude on the same longitude, 90 towards a
    larger longitude on the same latitude, -90 towards a smaller longitude,
    180 in absolute value towards a smaller latitude, and 45 when latitude
    and longitude grow by the same amount. *)
Theorem bearing_cardinal :
  forall (lat1 lon1 lat2 lon2 : R),
    (lat1 < lat2 -> lon1 = lon2 ->
     get_flat_earth_bearing lat1 lon1 lat2 lon2 = 0) /\
    (lon1 < lon2 -> lat1 = lat2 ->
     get_flat_earth_bearing lat1 lon1 lat2 lon2 = 90) /\
    (lon2 < lon1 -> lat1 = lat2 ->
     get_flat_earth_bearing lat1 lon1 lat2 lon2 = -90) /\
    (lat2 < lat1 -> lon1 = lon2 ->
     Rabs (get_flat_earth_bearing lat1 lon1 lat2 lon2) = 180) /\
    (0 < lat2 - lat1 -> lat2 - lat1 = lon2 - lon1 ->
     get_flat_earth_bearing lat1 lon1 lat2 lon2 = 45).
Proof.
  intros lat1 lon1 lat2 lon2. pose proof PI_RGT_0 as Hpi.
  unfold get_flat_earth_bearing, atan2.
  repeat split.
  - intros Hlat <-. replace (lon1 - lon1) with 0 by ring.
    destruct (Rlt_dec 0 (lat2 - lat1)) as [_ | H]; [| lra].
    replace (0 / (lat2 - lat1)) with 0 by (field; lra).
    rewrite atan_0. unfold degrees. ring.
  - intros Hlon <-. replace (lat1 - lat1) with 0 by ring.
    destruct (Rlt_dec 0 0) as [H | _]; [lra |].
    destruct (Rlt_dec 0 (lon2 - lon1)) as [_ | H]; [| lra].
    unfold degrees. field. apply PI_neq0.
  - intros Hlon <-. replace (lat1 - lat1) with 0 by ring.
    destruct (Rlt_dec 0 0) as [H | _]; [lra |].
    destruct (Rlt_dec 0 (lon2 - lon1)) as [H | _]; [lra |].
    destruct (Rlt_dec (lon2 - lon1) 0) as [_ | H]; [| lra].
    unfold degrees. field. apply PI_neq0.
  - intros Hlat <-. replace (lon1 - lon1) with 0 by ring.
    destruct (Rlt_dec 0 (lat2 - lat1)) as [H | _]; [lra |].
    destruct (Rlt_dec (lat2 - lat1) 0) as [_ | H]; [| lra].
    destruct (Rle_dec 0 0) as [_ | H]; [| lra].
    replace (0 / (lat2 - lat1)) with 0 by (field; lra).
    rewrite atan_0, Rplus_0_l, degrees_PI. apply Rabs_pos_eq. lra.
  - intros Hpos <-.
    destruct (Rlt_dec 0 (lat2 - lat1)) as [_ | H]; [| lra].
    replace ((lat2 - lat1) / (lat2 - lat1)) with 1 by (field; lra).
    rewrite atan_1. unfold degrees. field. apply PI_neq0.
Qed.

Lemma bearing_due_east (lat lon d : R) :
  0 < d -> get_flat_earth_bearing lat lon lat (lon + d) = 90.
Proof.
  intros Hd. unfold get_flat_earth_bearing, atan2.
  replace (lon + d - lon) with d by ring.
  replace (lat - lat) with 0 by ring.
  destruct (Rlt_dec 0 0) as [H | _]; [lra |].
  destruct (Rlt_dec 0 d) as [_ | H]; [| lra].
  unfold degrees. field. apply PI_neq0.
Qed.

Lemma bearing_cardinal_witness :
  2 < 12 /\ get_flat_earth_bearing 48 2 48 12 = 90.
Proof.
  assert (H : 2 < 12) by lra.
  split; [exact H |].
  exact (proj1 (proj2 (bearing_cardinal 48 2 48 12)) H eq_refl).
Defined.

Lemma atan2_reverse (b a : R) :
  a <> 0 \/ b <> 0 ->
  (0 < atan2 b a -> atan2 (- b) (- a) = atan2 b a - PI) /\
  (atan2 b a <= 0 -> atan2 (- b) (- a) = atan2 b a + PI).
Proof.
  intros Hne. pose proof PI_RGT_0 as Hpi. unfold atan2.
  destruct (Rlt_dec 0 a) as [Ha | Ha].
  - destruct (Rlt_dec 0 (- a)) as [H | _]; [lra |].
    destruct (Rlt_dec (- a) 0) as [_ | H]; [| lra].
    replace (- b / - a) with (b / a) by (field; lra).
    assert (Hinv : 0 < / a) by now apply Rinv_0_lt_compat.
    destruct (Rle_dec 0 (- b)) as [Hb | Hb]; split; intros Hsign; try lra.
    + destruct (Req_dec b 0) as [E | E].
      * rewrite E in Hsign. unfold Rdiv in Hsign.
        rewrite Rmult_0_l, atan_0 in Hsign. lra.
      * assert (atan (b / a) < 0) by (apply atan_neg; unfold Rdiv; nra). lra.
    + assert (0 < atan (b / a)) by (apply atan_pos; unfold Rdiv; nra). lra.
  - destruct (Rlt_dec a 0) as [Ha' | Ha'].
    + destruct (Rlt_dec 0 (- a)) as [_ | H]; [| lra].
      replace (- b / - a) with (b / a) by (field; lra).
      pose proof (atan_bound (b / a)) as [Hl Hu].
      destruct (Rle_dec 0 b); split; intros Hsign; lra.
    + assert (a = 0) as -> by lra.
      destruct (Rlt_dec 0 (- 0)) as [H | _]; [lra |].
      destruct (Rlt_dec (- 0) 0) as [H | _]; [lra |].
      destruct (Rlt_dec 0 b) as [Hb | Hb].
      * destruct (Rlt_dec 0 (- b)) as [H | _]; [lra |].
        destruct (Rlt_dec (- b) 0) as [_ | H]; [| lra].
        split; intros; lra.
      * destruct (Rlt_dec b 0) as [Hb' | Hb']; [| lra].
        destruct (Rlt_dec 0 (- b)) as [_ | H]; [| lra].
        split; intros; lra.
Qed.

(** X8.  Between two different points the bearing back is the bearing forth
    turned by 180 degrees, kept in (-180, 180]. *)
Theorem bearing_reverse :
  forall (lat1 lon1 lat2 lon2 : R),
    lat1 <> lat2 \/ lon1 <> lon2 ->
    (0 < get_flat_earth_bearing lat1 lon1 lat2 lon2 ->
     get_flat_earth_bearing lat2 lon2 lat1 lon1
     = get_flat_earth_bearing lat1 lon1 lat2 lon2 - 180) /\
    (get_flat_earth_bearing lat1 lon1 lat2 lon2 <= 0 ->
     get_flat_earth_bearing lat2 lon2 lat1 lon1
     = get_flat_earth_bearing lat1 lon1 lat2 lon2 + 180).
Proof.
  intros lat1 lon1 lat2 lon2 Hne. pose proof PI_RGT_0 as Hpi.
  unfold get_flat_earth_bearing.
  replace (lon1 - lon2) with (- (lon2 - lon1)) by ring.
  replace (lat1 - lat2) with (- (lat2 - lat1)) by ring.
  destruct (atan2_reverse (lon2 - lon1) (lat2 - lat1)) as [Hpos Hneg];
    [destruct Hne; [left | right]; lra |].
  assert (Hsign : forall v, (0 < degrees v <-> 0 < v)).
  { intros v. unfold degrees.
    assert (0 < 180 / PI) by (apply Rdiv_lt_0_compat; lra).
    split; intros; nra. }
  split; intros H.
  - rewrite Hpos by now apply Hsign.
    rewrite <- degrees_PI. unfold degrees. ring.
  - rewrite Hneg.
    + rewrite <- degrees_PI. unfold degrees. ring.
    + destruct (Rle_lt_dec (atan2 (lon2 - lon1) (lat2 - lat1)) 0) as [Hle | Hgt];
        [exact Hle |].
      apply Hsign in Hgt. lra.
Qed.

Lemma bearing_reverse_witness :
  (48 <> 48 \/ 2 <> 12) /\
  get_flat_earth_bearing 48 12 48 2 = get_flat_earth_bearing 48 2 48 12 - 180.
Proof.
  assert (H : 48 <> 48 \/ 2 <> 12) by (right; lra).
  split; [exact H |].
  apply (proj1 (bearing_reverse 48 2 48 12 H)).
  replace 12 with (2 + 10) by ring.
  rewrite bearing_due_east; lra.
Defined.

(* ===================================================================== *)
(** * Further properties of the distance table *)
(* ===================================================================== *)

Lemma loc_by_count {A : Type} (index : A -> Z) (df : list A) (l : Z) :
  match List.length (filter (fun r => Z.eqb (index r) l) df) with
  | O => loc index df l = Raise KeyError
  | S O => exists r, loc index df l = Ok r
  | S (S _) => loc index df l = Raise TypeError
  end.
Proof.
  unfold loc. destruct (filter _ df) as [| r1 [| r2 rest]]; simpl; eauto.
Qed.

Lemma loc_Ok_unique {A : Type} (index : A -> Z) (df : list A) (l : Z) (r r' : A) :
  loc index df l = Ok r -> In r' df -> index r' = l -> r' = r.
Proof.
  unfold loc. intros H Hin Hl.
  assert (Hf : In r' (filter (fun r => Z.eqb (index r) l) df))
    by (apply filter_label_In; tauto).
  destruct (filter _ df) as [| r1 [| r2 rest]]; try discriminate.
  injection H as <-. destruct Hf as [-> | []]. reflexivity.
Qed.

(** X9.  The target lookup of [get_distances]: the call raises [KeyError]
    exactly when no catalog row carries the target id (so on every empty
    catalog), and [TypeError] exactly when several rows carry it; a table
    it returns was built from exactly one target row and has one row per
    catalog row, with the catalog's labels in order. *)
Theorem get_distances_outcome :
  forall (gdf : list Location) (target : Z),
    let n := List.length (filter (fun r => Z.eqb (fid r) target) gdf) in
    (get_distances gdf target = Raise KeyError <-> n = 0%nat) /\
    (get_distances gdf target = Raise TypeError <-> (2 <= n)%nat) /\
    (forall table,
        get_distances gdf target = Ok table ->
        n = 1%nat /\
        List.length table = List.length gdf /\
        map label table = map fid gdf).
Proof.
  intros gdf target n. subst n.
  pose proof (loc_by_count fid gdf target) as H.
  destruct (List.length (filter (fun r => Z.eqb (fid r) target) gdf))
    as [| [| n]].
  - assert (E : get_distances gdf target = Raise KeyError)
      by (unfold get_distances; now rewrite H).
    rewrite E. repeat split; try discriminate; try reflexivity; lia.
  - destruct H as [target_row Hloc].
    rewrite (get_distances_value _ _ _ Hloc).
    repeat split; try discriminate; try lia.
    + injection H as <-. apply length_map.
    + injection H as <-. apply map_label_score.
  - assert (E : get_distances gdf target = Raise TypeError)
      by (unfold get_distances; now rewrite H).
    rewrite E. repeat split; try discriminate; try reflexivity; lia.
Qed.

(** X10.  Every row of a table built by [get_distances] has a distance
    between 0 and [MAX_DISTANCE] and a direction between -180 and 180,
    ends included. *)
Theorem table_ranges :
  forall (gdf : list Location) (target : Z) (table : list Scored) (row : Scored),
    get_distances gdf target = Ok table -> In row table ->
    0 <= distance row <= MAX_DISTANCE /\ -180 <= direction row <= 180.
Proof.
  intros gdf target table row Hgd Hin.
  destruct (get_distances_Ok _ _ _ Hgd) as (tr & _ & ->).
  apply in_map_iff in Hin as (r & <- & _). simpl. split.
  - rewrite MAX_DISTANCE_value. apply great_circle_nonneg. lra.
  - apply degrees_atan2_range.
Qed.

Lemma table_ranges_witness :
  get_distances example_catalog 1 = Ok example_table /\
  In (score (country 1 "A" 0 0) (country 3 "C" 0 180)) example_table /\
  0 <= distance (score (country 1 "A" 0 0) (country 3 "C" 0 180)) <= MAX_DISTANCE.
Proof.
  assert (Hin : In (score (country 1 "A" 0 0) (country 3 "C" 0 180)) example_table)
    by (right; right; left; reflexivity).
  split; [exact example_table_built |]. split; [exact Hin |].
  exact (proj1 (table_ranges example_catalog 1 example_table _
                  example_table_built Hin)).
Defined.

(** X11.  Distances agree across tables: the distance shown for record [b] when
    [a] is the target equals the distance shown for [a] when [b] is the
    target. *)
Theorem table_distance_symmetric :
  forall (gdf : list Location) (a b : Z) (table_a table_b : list Scored)
         (row_a row_b : Scored),
    get_distances gdf a = Ok table_a ->
    get_distances gdf b = Ok table_b ->
    loc label table_a b = Ok row_b ->
    loc label table_b a = Ok row_a ->
    distance row_b = distance row_a.
Proof.
  intros gdf a b table_a table_b row_a row_b Hga Hgb Hlb Hla.
  destruct (get_distances_Ok _ _ _ Hga) as (ta & Hta & ->).
  destruct (get_distances_Ok _ _ _ Hgb) as (tb & Htb & ->).
  apply loc_Ok in Hlb as [Hinb Hfb]. apply loc_Ok in Hla as [Hina Hfa].
  apply in_map_iff in Hinb as (rb & <- & Hrb).
  apply in_map_iff in Hina as (ra & <- & Hra).
  unfold label in Hfa, Hfb. simpl in Hfa, Hfb.
  assert (rb = tb) as -> by (apply (loc_Ok_unique fid gdf b); assumption).
  assert (ra = ta) as -> by (apply (loc_Ok_unique fid gdf a); assumption).
  simpl. apply great_circle_sym.
Qed.

Lemma table_distance_symmetric_witness :
  exists table_b row_a row_b,
    get_distances example_catalog 1 = Ok example_table /\
    get_distances example_catalog 2 = Ok table_b /\
    loc label example_table 2 = Ok row_b /\
    loc label table_b 1 = Ok row_a /\
    distance row_b = distance row_a.
Proof.
  pose (A := country 1 "A" 0 0). pose (B := country 2 "B" 0 90).
  assert (Hgb : get_distances example_catalog 2 = Ok (map (score B) example_catalog))
    by (apply get_distances_value; reflexivity).
  assert (Hlb : loc label example_table 2 = Ok (score A B)) by reflexivity.
  assert (Hla : loc label (map (score B) example_catalog) 1 = Ok (score B A))
    by reflexivity.
  exists (map (score B) example_catalog), (score B A), (score A B).
  split; [exact example_table_built |]. split; [exact Hgb |].
  split; [exact Hlb |]. split; [exact Hla |].
  exact (table_distance_symmetric example_catalog 1 2 _ _ _ _
           example_table_built Hgb Hlb Hla).
Defined.

(* ===================================================================== *)
(** * Further properties of name resolution and the display *)
(* ===================================================================== *)

(** X12.  Every option of the guess selectbox resolves to a row carrying that
    name, so a guess picked from the options never raises; when the names
    of the column are pairwise different, every row is found again from
    its own name. *)
Theorem options_resolve :
  forall (table : list Scored) (col : string) (options : list string),
    get_country_names table col = Ok options ->
    List.length options = List.length table /\
    (forall n, In n options ->
       exists r, In r table /\ names (location r) col = n /\
                 resolve_guess table col n = Ok (label r)) /\
    (NoDup options ->
     forall r, In r table ->
       resolve_guess table col (names (location r) col) = Ok (label r)).
Proof.
  intros table col options. unfold get_country_names.
  destruct (has_column col) eqn:Hhas; [| discriminate].
  intros H. injection H as <-.
  split; [apply length_map |]. split.
  - intros n Hn. apply in_map_iff in Hn as (r0 & Hname & Hin0).
    destruct (first_match table col n) as (pre & r & post & Htab & Hn & Hpre);
      [eauto |].
    exists r. split; [rewrite Htab; apply in_or_app; right; now left |].
    split; [exact Hn |].
    now apply (resolve_guess_first table pre post).
  - intros Hnd r Hin.
    destruct (first_match table col (names (location r) col))
      as (pre & r0 & post & Htab & Hn & Hpre); [eauto |].
    destruct (in_split _ _ Hin) as (l1 & l2 & Htab').
    assert (r0 = r) as <-.
    { rewrite Htab in Hnd.
      assert (E : pre ++ r0 :: post = l1 ++ r :: l2) by (rewrite <- Htab; exact Htab').
      now destruct (NoDup_split_unique (fun s => names (location s) col)
                      _ _ _ _ _ _ Hnd E Hn) as (_ & ? & _). }
    now apply (resolve_guess_first table pre post).
Qed.

Lemma options_resolve_witness :
  get_country_names example_table "name_fr"
  = Ok ["A"; "B"; "C"; "D"; "E"; "F"; "G"] /\
  resolve_guess example_table "name_fr" "E" = Ok 5%Z.
Proof.
  assert (H : get_country_names example_table "name_fr"
              = Ok ["A"; "B"; "C"; "D"; "E"; "F"; "G"]) by reflexivity.
  split; [exact H |].
  assert (Hnd : NoDup ["A"; "B"; "C"; "D"; "E"; "F"; "G"]).
  { repeat constructor; simpl; intros Hin;
      repeat (destruct Hin as [Hin | Hin]; [discriminate Hin |]); exact Hin. }
  exact (proj2 (proj2 (options_resolve example_table "name_fr" _ H)) Hnd
           (score (country 1 "A" 0 0) (country 5 "E" 0 60))
           ltac:(do 4 right; left; reflexivity)).
Defined.

(** X13.  A closer guess never gets a worse icon: on percentages up to 100 the
    icon is monotone, bronze below silver below gold. *)
Theorem prox_icon_monotone :
  forall (p q : R),
    p <= q -> q <= 100 ->
    (icon_rank (prox_icon_of p) <= icon_rank (prox_icon_of q))%nat.
Proof.
  intros p q Hpq Hq.
  destruct (prox_icon_thresholds p ltac:(lra)) as (Hg & Hs & Hb).
  destruct (prox_icon_thresholds q Hq) as (Hg' & Hs' & Hb').
  destruct (prox_icon_of p) eqn:Ep; destruct (prox_icon_of q) eqn:Eq;
    simpl; try lia; exfalso.
  - pose proof (proj1 Hg eq_refl). pose proof (proj1 Hs' eq_refl). lra.
  - pose proof (proj1 Hg eq_refl). pose proof (proj1 Hb' eq_refl). lra.
  - pose proof (proj1 Hs eq_refl). pose proof (proj1 Hb' eq_refl). lra.
Qed.

Lemma prox_icon_monotone_witness :
  505 / 10 <= 75 /\ 75 <= 100 /\
  (icon_rank (prox_icon_of (505 / 10)) <= icon_rank (prox_icon_of 75))%nat.
Proof.
  assert (H1 : 505 / 10 <= 75) by lra. assert (H2 : 75 <= 100) by lra.
  split; [exact H1 |]. split; [exact H2 |].
  exact (prox_icon_monotone _ _ H1 H2).
Defined.

Lemma apply_rows_Forall2 {A B : Type} (f : A -> result B) (l : list A)
    (bs : list B) :
  apply_rows f l = Ok bs -> Forall2 (fun a b => f a = Ok b) l bs.
Proof.
  revert bs. induction l as [| a l IH]; simpl; intros bs H.
  - injection H as <-. constructor.
  - destruct (f a) as [b |] eqn:Hfa; [| discriminate]. simpl in H.
    destruct (apply_rows f l) as [bs' |]; [| discriminate]. simpl in H.
    injection H as <-. constructor; [exact Hfa | now apply IH].
Qed.

Lemma display_guess_inv (table : list Scored) (col : string) (g : Z)
    (info : GuessInfo) :
  display_guess table col g = Ok info ->
  exists row,
    loc label table g = Ok row /\ has_column col = true /\
    info = {| display_guess_name := names (location row) col;
              info_distance := distance row;
              info_direction := direction row;
              info_icon := prox_icon_of ((1 - distance row / MAX_DISTANCE) * 100);
              distance_percentage := (1 - distance row / MAX_DISTANCE) * 100 |}.
Proof.
  unfold display_guess. intros H.
  destruct (loc label table g) as [row | e]; [| discriminate]. simpl in H.
  destruct (has_column col); [| discriminate].
  rewrite py_div_MAX_DISTANCE in H. simpl in H. injection H as <-.
  exists row. repeat split; reflexivity.
Qed.

Lemma percentage_bounds (d : R) :
  0 <= d <= MAX_DISTANCE -> 0 <= (1 - d / MAX_DISTANCE) * 100 <= 100.
Proof.
  intros [Hd0 Hd1]. pose proof MAX_DISTANCE_pos as HM.
  assert (Hq : 0 <= d / MAX_DISTANCE <= 1).
  { split.
    - apply Rmult_le_pos; [exact Hd0 | left; now apply Rinv_0_lt_compat].
    - apply (Rmult_le_reg_r MAX_DISTANCE); [exact HM |].
      unfold Rdiv. rewrite Rmult_assoc, Rinv_l by lra. lra. }
  lra.
Qed.

Lemma play_page (col : string) (t : Z) (table : list Scored) (gs gs' : list Z)
    (rq : Request) (page : Page) :
  play col t table gs rq = (gs', Ok page) ->
  (mem t gs = true /\ exists header, page = PageWon header) \/
  (mem t gs = false /\
   apply_rows (display_guess table col) gs = Ok (page_infos page)).
Proof.
  unfold play.
  destruct (has_label label table t); simpl; [| discriminate].
  destruct (mem t gs) eqn:Hwon.
  - destruct (loc label table t) as [row | e]; simpl; [| discriminate].
    destruct (has_column col); [| discriminate].
    destruct (loc_all label table gs); simpl; [| discriminate].
    intros H. injection H as _ <-. left. eauto.
  - destruct (hint_maps table t gs rq); [| discriminate].
    destruct (apply_rows (display_guess table col) gs) as [infos | e];
      [| discriminate].
    intros H. right. split; [reflexivity |].
    destruct (List.length gs =? 6)%nat.
    + injection H as _ <-. reflexivity.
    + destruct (resolve_guess table col (guess rq)) as [g | e]; [| discriminate].
      destruct (negb (has_guessed rq) || mem g gs);
        injection H as _ <-; reflexivity.
Qed.

(** X14.  What a page shows for a stored session.  Once the target is among the
    guesses the page is the WON page and no guess line is shown.
    Otherwise there is one line per guess, in guess order, for a record
    other than the target, with that record's name in the selected column,
    its distance and direction from the table, a proximity between 0 and
    100, and the gold icon exactly when that proximity is 100. *)
Theorem displayed_lines :
  forall (gdf : list Location) (st st' : SessionState) (rq : Request)
         (t : Z) (table : list Scored) (gs : list Z) (col : string) (page : Page),
    reachable gdf st ->
    random_location st = Some t -> all_locations st = Some table ->
    guesses st = Some gs ->
    select_locale_col (query_locales rq) (locale_held rq) = Ok col ->
    main gdf st rq = (st', Ok page) ->
    (In t gs -> exists header, page = PageWon header) /\
    (~ In t gs ->
     Forall2
       (fun g info =>
          exists row,
            In row table /\ label row = g /\ g <> t /\
            display_guess_name info = names (location row) col /\
            info_distance info = distance row /\
            info_direction info = direction row /\
            distance_percentage info = (1 - distance row / MAX_DISTANCE) * 100 /\
            0 <= distance_percentage info <= 100 /\
            (info_icon info = Gold <-> distance_percentage info = 100))
       gs (page_infos page)).
Proof.
  intros gdf st st' rq t table gs col page Hreach Hrl Ha Hg Hcol Hmain.
  destruct (reachable_session _ _ _ _ _ Hreach Hrl Ha Hg) as (Hgd & _ & _ & _).
  rewrite (main_resume _ _ _ _ _ _ _ Hrl Ha Hg Hcol) in Hmain.
  destruct (play col t table gs rq) as [gs' page'] eqn:Hplay.
  simpl in Hmain. injection Hmain as _ ->.
  destruct (play_page _ _ _ _ _ _ _ Hplay) as [[Hwon Hpage] | [Hwon Hrows]].
  - split; [intros _; exact Hpage |].
    intros Hn. apply mem_In in Hwon. contradiction.
  - split; [intros Hin; apply mem_In in Hin; congruence |].
    intros Hnotin. apply apply_rows_Forall2 in Hrows.
    assert (Hgs : Forall (fun g => g <> t) gs).
    { apply Forall_forall. intros g Hin ->. contradiction. }
    clear Hplay Hg Hnotin Hwon.
    induction Hrows as [| g info gs0 infos Hline _ IH]; constructor.
    + inversion Hgs as [| ? ? Hne _]; subst.
      apply display_guess_inv in Hline as (row & Hloc & _ & ->). simpl.
      exists row. apply loc_Ok in Hloc as [Hin Hl].
      assert (Hd : 0 <= distance row <= MAX_DISTANCE).
      { destruct (get_distances_Ok _ _ _ Hgd) as (tr & _ & E).
        rewrite E in Hin. apply in_map_iff in Hin as (r0 & <- & _).
        simpl. rewrite MAX_DISTANCE_value. apply great_circle_nonneg. lra. }
      pose proof (percentage_bounds _ Hd) as Hb.
      repeat split; try assumption; try reflexivity; try tauto.
      * apply (prox_icon_thresholds _ (proj2 Hb)).
      * apply (prox_icon_thresholds _ (proj2 Hb)).
    + inversion Hgs; subst. now apply IH.
Qed.

(* ===================================================================== *)
(** * Further properties of the session *)
(* ===================================================================== *)

Lemma example_reachable_2 : reachable example_catalog (example_session [2; 3]%Z).
Proof.
  apply (example_step [2%Z] "C" 3); try reflexivity.
  apply (example_step [] "B" 2); try reflexivity.
  exact (reachable_new _ _ _ example_table_built).
Qed.

Lemma displayed_lines_witness :
  exists page,
    main example_catalog (example_session [2; 3]%Z) (submit "B")
    = (example_session [2; 3]%Z, Ok page) /\
    Forall2
      (fun g info =>
         exists row,
           In row example_table /\ label row = g /\ g <> 1%Z /\
           display_guess_name info = names (location row) "name_en" /\
           info_distance info = distance row /\
           info_direction info = direction row /\
           distance_percentage info = (1 - distance row / MAX_DISTANCE) * 100 /\
           0 <= distance_percentage info <= 100 /\
           (info_icon info = Gold <-> distance_percentage info = 100))
      [2; 3]%Z (page_infos page).
Proof.
  destruct (main_submit example_catalog (example_session [2; 3]%Z) (submit "B")
              1 example_table [2; 3]%Z "name_en" 2 example_fid_unique
              example_reachable_2 eq_refl eq_refl eq_refl eq_refl eq_refl
              eq_refl ltac:(simpl; lia) eq_refl) as [infos Hmain].
  simpl in Hmain. exists (PageWarning infos). split; [exact Hmain |].
  apply (proj2 (displayed_lines example_catalog (example_session [2; 3]%Z) _
                  (submit "B") 1 example_table [2; 3]%Z "name_en" _
                  example_reachable_2 eq_refl eq_refl eq_refl eq_refl Hmain)).
  simpl. intuition lia.
Defined.

(** The session a run leaves: the one it found, a new one (on a session
    without target) holding no guess or the one just submitted, or the
    stored one with one guess appended. *)
Lemma main_state_cases (gdf : list Location) (st : SessionState) (rq : Request) :
  fst (main gdf st rq) = st \/
  (exists t table gs',
      random_location st = None /\ random_row rq = Some t /\
      get_distances gdf t = Ok table /\
      fst (main gdf st rq) = session t table gs' /\
      (gs' = [] \/
       exists g col,
         gs' = [g] /\ has_guessed rq = true /\
         select_locale_col (query_locales rq) (locale_held rq) = Ok col /\
         resolve_guess table col (guess rq) = Ok g)) \/
  (exists t table gs g col,
      random_location st = Some t /\ all_locations st = Some table /\
      guesses st = Some gs /\
      select_locale_col (query_locales rq) (locale_held rq) = Ok col /\
      fst (main gdf st rq) = session t table (gs ++ [g]) /\
      mem t gs = false /\ List.length gs <> 6%nat /\
      resolve_guess table col (guess rq) = Ok g /\
      has_guessed rq = true /\ mem g gs = false).
Proof.
  destruct (random_location st) as [t |] eqn:Hrl.
  - destruct (guesses st) as [gs |] eqn:Hg.
    + destruct (all_locations st) as [table |] eqn:Ha.
      * destruct (main_stored gdf st rq t table gs Hrl Ha Hg) as [H | H];
          [now left |].
        destruct H as (col & g & Hcol & Hst & Hrest).
        right. right. exists t, table, gs, g, col. tauto.
      * left. unfold main, load_session. rewrite Hrl, Hg, Ha.
        now destruct (select_locale_col _ _).
    + left. unfold main, load_session. rewrite Hrl, Hg.
      now destruct (select_locale_col _ _).
  - destruct (select_locale_col (query_locales rq) (locale_held rq))
      as [col | e] eqn:Hcol; [| left; unfold main; now rewrite Hcol].
    destruct (random_row rq) as [t |] eqn:Hrow;
      [| left; unfold main, load_session; now rewrite Hcol, Hrl, Hrow].
    destruct (get_distances gdf t) as [table | e] eqn:Hgd;
      [| left; unfold main, load_session; now rewrite Hcol, Hrl, Hrow, Hgd].
    right. left.
    rewrite (main_new gdf st rq t table col Hrl Hrow Hgd Hcol). simpl.
    destruct (play_guesses col t table [] rq) as [Hsame | Happ].
    + exists t, table, []. rewrite Hsame. tauto.
    + destruct Happ as (g & infos & Hp & _ & _ & Hres & Hsub & _).
      exists t, table, [g]. rewrite Hp. simpl.
      repeat split; try assumption; try reflexivity.
      right. exists g, col. tauto.
Qed.

(** X15.  In every reachable session with a target: the table is the one
    [get_distances] gives for the target, the target is a catalog id, the
    guesses are pairwise different catalog ids, and the target can only be
    the last guess (nothing is recorded after a win). *)
Theorem session_well_formed :
  forall (gdf : list Location) (st : SessionState) (t : Z) (gs : list Z),
    reachable gdf st ->
    random_location st = Some t -> guesses st = Some gs ->
    (exists table,
        all_locations st = Some table /\ get_distances gdf t = Ok table) /\
    In t (map fid gdf) /\
    NoDup gs /\
    (forall g, In g gs -> In g (map fid gdf)) /\
    ~ In t (removelast gs).
Proof.
  intros gdf st t gs Hreach Hrl Hg.
  destruct (reachable_inv _ _ Hreach) as [_ Hses].
  destruct (Hses t Hrl) as (table & gs' & Ha & Hg' & Hgd & Hall & Hnd).
  rewrite Hg in Hg'. injection Hg' as <-.
  pose proof (table_labels gdf t table Hgd) as Hlabels.
  split; [eauto |]. split.
  - rewrite <- Hlabels. apply has_label_In.
    now apply (target_labelled gdf t table).
  - split; [exact Hnd |]. split.
    + intros g Hin. rewrite <- Hlabels. apply has_label_In.
      revert g Hin. now apply Forall_forall.
    + clear Ha Hgd Hall Hnd Hlabels Hses table.
      revert t gs Hrl Hg.
      induction Hreach as [| st rq Hreach IH | st st0 Hreach IH Hreset];
        intros t gs Hrl Hg.
      * discriminate.
      * destruct (main_state_cases gdf st rq) as [Hsame | [Hnew | Happ]].
        -- rewrite Hsame in Hrl, Hg. now apply (IH t gs).
        -- destruct Hnew as (t0 & table & gs' & _ & _ & _ & Hst & Hgs').
           rewrite Hst in Hrl, Hg. simpl in Hrl, Hg.
           injection Hrl as ->. injection Hg as ->.
           destruct Hgs' as [-> | (g & col & -> & _)]; simpl; tauto.
        -- destruct Happ as (t0 & table & gs0 & g & col & _ & _ & _ & _
                             & Hst & Hwon & _).
           rewrite Hst in Hrl, Hg. simpl in Hrl, Hg.
           injection Hrl as ->. injection Hg as <-.
           rewrite removelast_last. now apply mem_false.
      * unfold on_reset in Hreset.
        destruct (random_location st); [| discriminate].
        injection Hreset as <-. discriminate.
Qed.

Lemma session_well_formed_witness :
  reachable example_catalog (example_session [2; 3; 4; 5; 6; 1]%Z) /\
  NoDup [2; 3; 4; 5; 6; 1]%Z /\
  ~ In 1%Z (removelast [2; 3; 4; 5; 6; 1]%Z).
Proof.
  destruct (session_well_formed example_catalog
              (example_session [2; 3; 4; 5; 6; 1]%Z) 1 [2; 3; 4; 5; 6; 1]%Z
              example_reachable_won eq_refl eq_refl)
    as (_ & _ & Hnd & _ & Hlast).
  split; [exact example_reachable_won |]. split; [exact Hnd | exact Hlast].
Defined.

(** X16.  Once the target is among the guesses, whatever their number, every run
    leaves the session as it is; with a valid locale column it ends on the
    WON page, whose header is the target's name in that column. *)
Theorem won_is_terminal :
  forall (gdf : list Location) (st : SessionState) (rq : Request)
         (t : Z) (table : list Scored) (gs : list Z),
    reachable gdf st ->
    random_location st = Some t -> all_locations st = Some table ->
    guesses st = Some gs -> In t gs ->
    fst (main gdf st rq) = st /\
    (forall col,
        select_locale_col (query_locales rq) (locale_held rq) = Ok col ->
        has_column col = true ->
        exists row,
          In row table /\ label row = t /\
          main gdf st rq = (st, Ok (PageWon (names (location row) col)))).
Proof.
  intros gdf st rq t table gs Hreach Hrl Ha Hg Hin.
  apply mem_In in Hin. split.
  - destruct (main_stored gdf st rq t table gs Hrl Ha Hg) as [H | H]; [exact H |].
    destruct H as (col & g & _ & _ & Hwon & _). congruence.
  - intros col Hcol Hhas.
    destruct (reachable_session _ _ _ _ _ Hreach Hrl Ha Hg) as (Hgd & Hall & _ & _).
    destruct (target_row_found gdf t table Hgd) as [row Hloc].
    exists row. destruct (loc_Ok _ _ _ _ Hloc) as [Hrow Hlab].
    split; [exact Hrow |]. split; [exact Hlab |].
    rewrite (main_resume _ _ _ _ _ _ _ Hrl Ha Hg Hcol).
    unfold play.
    rewrite (target_labelled gdf t table Hgd), Hin, Hloc. simpl.
    rewrite Hhas, (loc_all_guesses table gs Hall). simpl.
    now rewrite set_guesses_same.
Qed.

Lemma won_is_terminal_witness :
  reachable example_catalog (example_session [2; 1]%Z) /\
  In 1%Z [2; 1]%Z /\
  fst (main example_catalog (example_session [2; 1]%Z) (submit "C"))
  = example_session [2; 1]%Z.
Proof.
  assert (Hreach : reachable example_catalog (example_session [2; 1]%Z)).
  { apply (example_step [2%Z] "A" 1); try reflexivity.
    apply (example_step [] "B" 2); try reflexivity.
    exact (reachable_new _ _ _ example_table_built). }
  assert (Hin : In 1%Z [2; 1]%Z) by (right; left; reflexivity).
  split; [exact Hreach |]. split; [exact Hin |].
  exact (proj1 (won_is_terminal example_catalog (example_session [2; 1]%Z)
                  (submit "C") 1 example_table [2; 1]%Z
                  Hreach eq_refl eq_refl eq_refl Hin)).
Defined.

(** X17.  A run on a stored session never changes the target or the table and
    never removes or reorders a guess: the guess list stays as it is or
    gets exactly one new entry at its end, a catalog id not guessed before,
    and only while the session is active. *)
Theorem run_is_append_only :
  forall (gdf : list Location) (st : SessionState) (rq : Request)
         (t : Z) (table : list Scored) (gs : list Z),
    reachable gdf st ->
    random_location st = Some t -> all_locations st = Some table ->
    guesses st = Some gs ->
    exists gs',
      fst (main gdf st rq) = session t table gs' /\
      (gs' = gs \/
       exists g,
         gs' = gs ++ [g] /\ ~ In g gs /\ In g (map fid gdf) /\
         ~ In t gs /\ (List.length gs < 6)%nat /\ has_guessed rq = true).
Proof.
  intros gdf st rq t table gs Hreach Hrl Ha Hg.
  destruct (reachable_session _ _ _ _ _ Hreach Hrl Ha Hg) as (Hgd & _ & _ & Hlen).
  destruct (main_stored gdf st rq t table gs Hrl Ha Hg) as [H | H].
  - exists gs. split; [| now left]. rewrite H.
    destruct st; simpl in *. now subst.
  - destruct H as (col & g & _ & Hst & Hwon & Hne & Hres & Hsub & Hdup).
    exists (gs ++ [g]). split; [exact Hst |]. right. exists g.
    split; [reflexivity |]. split; [now apply mem_false |].
    split.
    + rewrite <- (table_labels gdf t table Hgd). apply has_label_In.
      now apply resolve_guess_label in Hres.
    + split; [now apply mem_false |]. split; [lia | exact Hsub].
Qed.

Lemma run_is_append_only_witness :
  reachable example_catalog (example_session [2; 3]%Z) /\
  exists gs',
    fst (main example_catalog (example_session [2; 3]%Z) (submit "D"))
    = session 1 example_table gs'.
Proof.
  split; [exact example_reachable_2 |].
  destruct (run_is_append_only example_catalog (example_session [2; 3]%Z)
              (submit "D") 1 example_table [2; 3]%Z
              example_reachable_2 eq_refl eq_refl eq_refl) as (gs' & H & _).
  exists gs'. exact H.
Defined.

(** X18.  After an accepted submission the next run decides the round: it shows
    the WON page when the submitted id is the target, the LOST page when it
    is not and it was the sixth guess, and otherwise the session is still
    active. *)
Theorem after_submission :
  forall (gdf : list Location) (st : SessionState) (rq rq2 : Request)
         (t : Z) (table : list Scored) (gs : list Z) (g : Z)
         (infos : list GuessInfo) (col2 : string),
    NoDup (map fid gdf) -> reachable gdf st ->
    random_location st = Some t -> all_locations st = Some table ->
    guesses st = Some gs ->
    main gdf st rq = (session t table (gs ++ [g]), Ok (PageRerun infos)) ->
    select_locale_col (query_locales rq2) (locale_held rq2) = Ok col2 ->
    has_column col2 = true ->
    (g = t ->
     exists header,
       main gdf (session t table (gs ++ [g])) rq2
       = (session t table (gs ++ [g]), Ok (PageWon header))) /\
    (g <> t -> List.length gs = 5%nat ->
     exists infos2,
       main gdf (session t table (gs ++ [g])) rq2
       = (session t table (gs ++ [g]), Ok (PageLost infos2))) /\
    (g <> t -> List.length gs <> 5%nat ->
     ~ In t (gs ++ [g]) /\ (List.length (gs ++ [g]) < 6)%nat).
Proof.
  intros gdf st rq rq2 t table gs g infos col2 Hnd Hreach Hrl Ha Hg Hmain
         Hcol2 Hhas2.
  pose proof (reach_run gdf st rq Hreach) as Hreach1.
  rewrite Hmain in Hreach1. simpl in Hreach1.
  destruct (reachable_session gdf _ t table (gs ++ [g]) Hreach1
              eq_refl eq_refl eq_refl) as (Hgd & Hall & _ & Hlen1).
  destruct (main_stored gdf st rq t table gs Hrl Ha Hg) as [H | H].
  { exfalso. rewrite Hmain in H. simpl in H. rewrite <- H in Hg. simpl in Hg.
    injection Hg as Hg. apply (f_equal (@List.length Z)) in Hg.
    rewrite length_app in Hg. simpl in Hg. lia. }
  destruct H as (col & g' & _ & Hst & Hwon & Hne & _).
  apply mem_false in Hwon.
  assert (Hrun : forall gs' page,
             play col2 t table (gs ++ [g]) rq2 = (gs', page) ->
             gs' = gs ++ [g] ->
             main gdf (session t table (gs ++ [g])) rq2
             = (session t table (gs ++ [g]), page)).
  { intros gs' page Hp ->.
    rewrite (main_resume gdf (session t table (gs ++ [g])) rq2 t table
               (gs ++ [g]) col2 eq_refl eq_refl eq_refl Hcol2).
    now rewrite Hp. }
  rewrite length_app in Hlen1. simpl in Hlen1.
  split; [| split].
  - intros ->.
    destruct (play_won gdf t table col2 Hgd Hhas2 (gs ++ [t]) Hall rq2)
      as [header Hp].
    + apply mem_In. apply in_or_app. right. now left.
    + exists header. now apply (Hrun _ _ Hp).
  - intros Hgt Hfive.
    destruct (play_lost gdf t table col2 Hgd Hhas2 Hnd (gs ++ [g]) Hall rq2)
      as [infos2 Hp].
    + apply mem_false. intros Hin. apply in_app_or in Hin as [Hin | [E | []]];
        [contradiction | congruence].
    + rewrite length_app. simpl. lia.
    + exists infos2. now apply (Hrun _ _ Hp).
  - intros Hgt Hnfive. split.
    + intros Hin. apply in_app_or in Hin as [Hin | [E | []]];
        [contradiction | congruence].
    + rewrite length_app. simpl. lia.
Qed.

Lemma after_submission_witness :
  exists infos header,
    main example_catalog (example_session [2; 3; 4; 5; 6]%Z) (submit "A")
    = (example_session [2; 3; 4; 5; 6; 1]%Z, Ok (PageRerun infos)) /\
    main example_catalog (example_session [2; 3; 4; 5; 6; 1]%Z) (submit "B")
    = (example_session [2; 3; 4; 5; 6; 1]%Z, Ok (PageWon header)).
Proof.
  destruct (main_submit example_catalog (example_session [2; 3; 4; 5; 6]%Z)
              (submit "A") 1 example_table [2; 3; 4; 5; 6]%Z "name_en" 1
              example_fid_unique example_reachable_5
              eq_refl eq_refl eq_refl eq_refl eq_refl
              eq_refl ltac:(simpl; lia) eq_refl) as [infos Hmain].
  simpl in Hmain.
  change (set_guesses (example_session [2; 3; 4; 5; 6]%Z) [2; 3; 4; 5; 6; 1]%Z)
    with (session 1 example_table ([2; 3; 4; 5; 6]%Z ++ [1%Z])) in Hmain.
  destruct (proj1 (after_submission example_catalog
                     (example_session [2; 3; 4; 5; 6]%Z) (submit "A") (submit "B")
                     1 example_table [2; 3; 4; 5; 6]%Z 1 infos "name_en"
                     example_fid_unique example_reachable_5
                     eq_refl eq_refl eq_refl Hmain eq_refl eq_refl) eq_refl)
    as [header Hwon].
  exists infos, header. split; [exact Hmain | exact Hwon].
Defined.

(** X19.  Reset.  [on_reset] fails with [KeyError] exactly when no target is
    stored; otherwise it removes only the target, and the next run starts a
    new session from the row drawn then, whatever the old target and
    guesses were: the new guess list is empty when nothing is submitted in
    that run, and never holds an old guess. *)
Theorem reset_starts_over :
  forall (gdf : list Location) (st : SessionState),
    (on_reset st = Raise KeyError <-> random_location st = None) /\
    (forall st' rq t table col,
        on_reset st = Ok st' ->
        random_row rq = Some t -> get_distances gdf t = Ok table ->
        select_locale_col (query_locales rq) (locale_held rq) = Ok col ->
        random_location st' = None /\ guesses st' = guesses st /\
        exists gs',
          fst (main gdf st' rq) = session t table gs' /\
          (has_guessed rq = false -> gs' = []) /\
          (forall g, In g gs' ->
             gs' = [g] /\ resolve_guess table col (guess rq) = Ok g)).
Proof.
  intros gdf st. split.
  - unfold on_reset. destruct (random_location st); split; intros H;
      try discriminate; reflexivity.
  - intros st' rq t table col Hreset Hrow Hgd Hcol.
    unfold on_reset in Hreset.
    destruct (random_location st) as [t0 |]; [| discriminate].
    injection Hreset as <-. simpl.
    split; [reflexivity |]. split; [reflexivity |].
    match goal with
    | |- context [main gdf ?s rq] =>
        rewrite (main_new gdf s rq t table col eq_refl Hrow Hgd Hcol)
    end. simpl.
    destruct (play_guesses col t table [] rq) as [Hsame | Happ].
    + exists []. rewrite Hsame. split; [reflexivity |].
      split; [reflexivity | intros g []].
    + destruct Happ as (g & infos & Hp & _ & _ & Hres & Hsub & _).
      exists [g]. rewrite Hp. simpl. split; [reflexivity |].
      split; [intros H; congruence |].
      intros g' [<- | []]. tauto.
Qed.

Lemma reset_starts_over_witness :
  on_reset (example_session [2; 3]%Z)
  = Ok {| random_location := None; all_locations := Some example_table;
          guesses := Some [2; 3]%Z |} /\
  exists gs',
    fst (main example_catalog
           {| random_location := None; all_locations := Some example_table;
              guesses := Some [2; 3]%Z |} (rerender 1%Z))
    = session 1 example_table gs' /\ gs' = [].
Proof.
  split; [reflexivity |].
  destruct (proj2 (reset_starts_over example_catalog (example_session [2; 3]%Z))
              _ (rerender 1%Z) 1%Z example_table "name_en"
              eq_refl eq_refl example_table_built eq_refl)
    as (_ & _ & gs' & Hst & Hempty & _).
  exists gs'. split; [exact Hst | exact (Hempty eq_refl)].
Defined.

(** X20.  In normal operation a run never raises: on a catalog with unique ids,
    with a valid locale column, a guess taken from the names of that
    column, and (when no target is stored) a drawn row of the catalog,
    every run from a reachable session ends on one of the four pages. *)
Theorem main_never_raises :
  forall (gdf : list Location) (st : SessionState) (rq : Request) (col : string),
    NoDup (map fid gdf) -> reachable gdf st ->
    select_locale_col (query_locales rq) (locale_held rq) = Ok col ->
    has_column col = true ->
    In (guess rq) (map (fun r => names r col) gdf) ->
    (random_location st = None ->
     exists t, random_row rq = Some t /\ In t (map fid gdf)) ->
    exists page, snd (main gdf st rq) = Ok page.
Proof.
  intros gdf st rq col Hnd Hreach Hcol Hhas Hguess Hdraw.
  assert (Hplay : forall t table gs,
             get_distances gdf t = Ok table ->
             Forall (fun g => has_label label table g = true) gs ->
             exists page, snd (play col t table gs rq) = Ok page).
  { intros t table gs Hgd Hall.
    destruct (mem t gs) eqn:Hwon.
    - destruct (play_won gdf t table col Hgd Hhas gs Hall rq Hwon) as [h ->].
      simpl. eauto.
    - destruct (Nat.eq_dec (List.length gs) 6) as [Hlen | Hlen].
      + destruct (play_lost gdf t table col Hgd Hhas Hnd gs Hall rq Hwon Hlen)
          as [infos ->]. simpl. eauto.
      + destruct (play_active gdf t table col Hgd Hhas Hnd gs Hall rq Hwon Hlen)
          as [infos ->].
        destruct (get_distances_Ok _ _ _ Hgd) as (tr & _ & Htab).
        destruct (first_match table col (guess rq)) as (pre & r & post & E & Hn & Hpre).
        { rewrite Htab. apply in_map_iff in Hguess as (r0 & Hname & Hin0).
          exists (score tr r0). split; [now apply in_map | exact Hname]. }
        rewrite (resolve_guess_first table pre post r col (guess rq) Hhas E Hn Hpre).
        destruct (negb (has_guessed rq) || mem (label r) gs); simpl; eauto. }
  destruct (random_location st) as [t |] eqn:Hrl.
  - destruct (reachable_inv _ _ Hreach) as [_ Hses].
    destruct (Hses t Hrl) as (table & gs & Ha & Hg & Hgd & Hall & _).
    rewrite (main_resume _ _ _ _ _ _ _ Hrl Ha Hg Hcol). simpl.
    now apply Hplay.
  - destruct (Hdraw eq_refl) as (t & Hrow & Hin).
    apply in_map_iff in Hin as (tr & <- & Hin).
    pose proof (get_distances_value gdf (fid tr) tr (loc_unique fid gdf tr Hnd Hin))
      as Hgd.
    rewrite (main_new gdf st rq (fid tr) _ col Hrl Hrow Hgd Hcol). simpl.
    apply Hplay; [exact Hgd | constructor].
Qed.

Lemma main_never_raises_witness :
  exists page, snd (main example_catalog no_session (submit "C")) = Ok page.
Proof.
  apply (main_never_raises example_catalog no_session (submit "C") "name_en"
           example_fid_unique (reach_start example_catalog) eq_refl eq_refl).
  - do 2 right. left. reflexivity.
  - intros _. exists 1%Z. split; [reflexivity | left; reflexivity].
Defined.

(* ===================================================================== *)
(** * Further properties of the locale and of the catalog queries *)
(* ===================================================================== *)

Lemma list_index_result (v : string) (l : list string) :
  (exists i, list_index v l = Ok i /\ nth_error l i = Some v) \/
  list_index v l = Raise ValueError.
Proof.
  induction l as [| v' l IH]; simpl; [now right |].
  destruct (String.eqb_spec v' v) as [-> | Hne].
  - left. exists 0%nat. split; reflexivity.
  - destruct IH as [(i & -> & Hn) | ->]; [| now right].
    left. exists (S i). split; [reflexivity | exact Hn].
Qed.

Lemma dict_get_In (d : list (string * string)) (k default : string) :
  In k (keys d) -> In (dict_get d k default) (map snd d).
Proof.
  induction d as [| [k' v] d IH]; simpl; intros Hin; [contradiction |].
  destruct (String.eqb_spec k' k) as [E | Hne]; [now left |].
  right. apply IH. destruct Hin as [E | Hin]; [contradiction | exact Hin].
Qed.

Lemma dict_get_default (d : list (string * string)) (k default : string) :
  ~ In k (keys d) -> dict_get d k default = default.
Proof.
  induction d as [| [k' v] d IH]; simpl; intros Hn; [reflexivity |].
  destruct (String.eqb_spec k' k) as [E | Hne]; [tauto |].
  apply IH. tauto.
Qed.

Lemma has_column_In (col : string) :
  has_column col = true <-> In col (map snd LOCALES).
Proof.
  unfold has_column. rewrite existsb_exists. split.
  - intros (c & Hin & E). apply String.eqb_eq in E. now subst.
  - intros Hin. exists col. split; [exact Hin | apply String.eqb_refl].
Qed.

(** X21.  Locale selection fails only on an empty list of query values, with
    [IndexError].  Without a value held by the widget the selected column
    always exists, whatever the query string holds.  With a held value [v]
    the column exists exactly when [v] is a key of [LOCALES]: the default
    ["en"] of [LOCALES.get] is a locale code, not a column name. *)
Theorem locale_col_exists :
  forall (q : option (list string)) (held : option string),
    (forall e, select_locale_col q held = Raise e -> q = Some [] /\ e = IndexError) /\
    (forall col,
        select_locale_col q held = Ok col ->
        (held = None -> has_column col = true) /\
        (forall v, held = Some v ->
           col = dict_get LOCALES v "en" /\
           (has_column col = true <-> In v (keys LOCALES)))).
Proof.
  intros q held.
  assert (Hidx : q = Some [] /\ locale_index_of q = Raise IndexError \/
                 exists i sel, locale_index_of q = Ok i /\
                               nth_error (keys LOCALES) i = Some sel).
  { destruct q as [[| code rest] |]; simpl.
    - left. tauto.
    - right. destruct (list_index_result code (keys LOCALES))
        as [(i & Hi & Hn) | Hi].
      + unfold keys in Hi. simpl in Hi. rewrite Hi. eauto.
      + unfold keys in Hi. simpl in Hi. rewrite Hi. exists 3%nat, "en".
        split; reflexivity.
    - right. exists 3%nat, "en". split; reflexivity. }
  assert (Hval : forall v, has_column (dict_get LOCALES v "en") = true
                           <-> In v (keys LOCALES)).
  { intros v. split.
    - intros Hhas. destruct (in_dec string_dec v (keys LOCALES)) as [Hin | Hn];
        [exact Hin |].
      rewrite (dict_get_default LOCALES v "en" Hn) in Hhas. discriminate.
    - intros Hin. apply has_column_In. now apply dict_get_In. }
  unfold select_locale_col. split.
  - intros e He. destruct Hidx as [[-> Hq] | (i & sel & Hq & Hn)].
    + simpl in He. injection He as <-. tauto.
    + rewrite Hq in He. cbn [bind] in He. unfold selectbox in He.
      destruct held; [discriminate |]. rewrite Hn in He. discriminate.
  - intros col Hc. destruct Hidx as [[-> Hq] | (i & sel & Hq & Hn)];
      [discriminate |].
    rewrite Hq in Hc. cbn [bind] in Hc. unfold selectbox in Hc. split.
    + intros ->. rewrite Hn in Hc. cbn [bind] in Hc. injection Hc as <-.
      apply Hval. now apply nth_error_In in Hn.
    + intros v ->. cbn [bind] in Hc. injection Hc as <-.
      split; [reflexivity | apply Hval].
Qed.

Lemma locale_col_exists_witness :
  select_locale_col (Some ["klingon"; "fr"]) None = Ok "name_en" /\
  has_column "name_en" = true.
Proof.
  assert (H : select_locale_col (Some ["klingon"; "fr"]) None = Ok "name_en")
    by reflexivity.
  split; [exact H |].
  exact (proj1 (proj2 (locale_col_exists (Some ["klingon"; "fr"]) None) _ H)
           eq_refl).
Defined.

Lemma insert_by_name_en_perm (r : CountryRow) (rows : list CountryRow) :
  Permutation (insert_by_name_en r rows) (r :: rows).
Proof.
  induction rows as [| r' rows IH]; simpl; [reflexivity |].
  destruct (String.leb _ _); [reflexivity |].
  rewrite IH. apply perm_swap.
Qed.

Lemma order_by_name_en_perm (rows : list CountryRow) :
  Permutation (order_by_name_en rows) rows.
Proof.
  induction rows as [| r rows IH]; simpl; [reflexivity |].
  rewrite insert_by_name_en_perm. now constructor.
Qed.

(** The model of [ORDER BY name_en] does sort. *)
Lemma order_by_name_en_sorted (rows : list CountryRow) :
  Sorted (fun a b => String.leb (row_names a "name_en") (row_names b "name_en") = true)
         (order_by_name_en rows).
Proof.
  induction rows as [| r rows IH]; simpl; [constructor |].
  set (l := order_by_name_en rows) in *. clearbody l. clear rows.
  induction l as [| r' l IHl]; simpl; [repeat constructor |].
  destruct (String.leb (row_names r "name_en") (row_names r' "name_en")) eqn:E.
  - constructor; [exact IH | constructor; exact E].
  - inversion IH as [| ? ? Hs Hhd]; subst.
    constructor; [now apply IHl |].
    assert (Hr : String.leb (row_names r' "name_en") (row_names r "name_en") = true).
    { destruct (String.leb_total (row_names r "name_en") (row_names r' "name_en"));
        congruence. }
    destruct l as [| r'' l]; simpl; [constructor; exact Hr |].
    destruct (String.leb (row_names r "name_en") (row_names r'' "name_en"));
      constructor; [exact Hr |].
    now inversion Hhd.
Qed.

Lemma selected_fids_unique (country : list CountryRow) :
  NoDup (map row_fid country) ->
  NoDup (map row_fid (filter selectable country)).
Proof.
  intros Hnd. induction country as [| r country IH]; simpl; [constructor |].
  inversion Hnd as [| ? ? Hnotin Hnd']; subst.
  destruct (selectable r); simpl; [| now apply IH].
  constructor; [| now apply IH].
  intros Hin. apply Hnotin. apply in_map_iff in Hin as (r' & E & Hr').
  apply in_map_iff. exists r'. split; [exact E |]. now apply filter_In in Hr'.
Qed.

Lemma NoDup_map_injective {A B : Type} (f : A -> B) (l : list A) (a b : A) :
  NoDup (map f l) -> In a l -> In b l -> f a = f b -> a = b.
Proof.
  induction l as [| c l IH]; simpl; intros Hnd Ha Hb E; [contradiction |].
  inversion Hnd as [| ? ? Hnotin Hnd']; subst.
  destruct Ha as [-> | Ha]; destruct Hb as [-> | Hb]; try reflexivity.
  - exfalso. apply Hnotin. rewrite E. now apply in_map.
  - exfalso. apply Hnotin. rewrite <- E. now apply in_map.
  - now apply IH.
Qed.

Lemma get_all_locations_In (country : list CountryRow) (l : Location) :
  In l (get_all_locations country) <->
  exists r, In r country /\ selectable r = true /\ l = as_location r.
Proof.
  unfold get_all_locations. rewrite in_map_iff. split.
  - intros (r & <- & Hin).
    apply (Permutation_in _ (order_by_name_en_perm _)) in Hin.
    apply filter_In in Hin. exists r. tauto.
  - intros (r & Hin & Hsel & ->). exists r. split; [reflexivity |].
    apply (Permutation_in _ (Permutation_sym (order_by_name_en_perm _))).
    apply filter_In. tauto.
Qed.

Lemma get_all_locations_fids (country : list CountryRow) :
  Permutation (map fid (get_all_locations country))
              (map row_fid (filter selectable country)).
Proof.
  unfold get_all_locations. rewrite map_map. simpl.
  apply Permutation_map. apply order_by_name_en_perm.
Qed.

(** X22.  The target drawn by [get_random_location] is always a row of the frame
    [get_all_locations] returns, both queries having the same [WHERE]
    clause.  On a table with unique [fid]s: the frame has unique labels;
    the draw is [None] exactly when the frame is empty; a drawn row is
    neither a dependency nor a lease, [get_distances] returns a table for
    it, and the first run of [main] stores a session for it; and a row the
    [WHERE] clause rejects is no label of the frame. *)
Theorem drawn_target_in_catalog :
  forall (country : list CountryRow) (rnd : nat),
    NoDup (map row_fid country) ->
    NoDup (map fid (get_all_locations country)) /\
    (get_random_location country rnd = None <-> get_all_locations country = []) /\
    (forall r,
        get_random_location country rnd = Some r ->
        In r country /\
        row_type r <> Some "Dependency" /\ row_type r <> Some "Lease" /\
        exists table,
          get_distances (get_all_locations country) (row_fid r) = Ok table /\
          forall st rq col,
            random_location st = None ->
            random_row rq = Some (row_fid r) ->
            select_locale_col (query_locales rq) (locale_held rq) = Ok col ->
            exists gs',
              fst (main (get_all_locations country) st rq)
              = session (row_fid r) table gs') /\
    (forall r,
        In r country -> selectable r = false ->
        ~ In (row_fid r) (map fid (get_all_locations country))).
Proof.
  intros country rnd Hnd.
  assert (Hnd' : NoDup (map fid (get_all_locations country))).
  { apply (Permutation_NoDup (Permutation_sym (get_all_locations_fids country))).
    now apply selected_fids_unique. }
  split; [exact Hnd' |]. split; [| split].
  - unfold get_random_location, get_all_locations.
    set (rows := filter selectable country).
    split.
    + intros Hnone. apply nth_error_None in Hnone.
      destruct rows as [| r rows']; [reflexivity |].
      exfalso.
      pose proof (Nat.mod_upper_bound rnd (List.length (r :: rows'))
                    ltac:(simpl; lia)). lia.
    + intros Hnil. apply (f_equal (@List.length Location)) in Hnil.
      rewrite length_map, (Permutation_length (order_by_name_en_perm rows)) in Hnil.
      destruct rows; [| discriminate].
      apply nth_error_None. simpl. lia.
  - intros r Hdraw. unfold get_random_location in Hdraw.
    apply nth_error_In in Hdraw. apply filter_In in Hdraw as [Hin Hsel].
    split; [exact Hin |].
    split; [intros E; unfold selectable in Hsel; rewrite E in Hsel; discriminate |].
    split; [intros E; unfold selectable in Hsel; rewrite E in Hsel; discriminate |].
    assert (Hrow : In (as_location r) (get_all_locations country))
      by (apply get_all_locations_In; eauto).
    pose proof (get_distances_value _ _ _
                  (loc_unique fid _ (as_location r) Hnd' Hrow)) as Hgd.
    simpl in Hgd. eexists. split; [exact Hgd |].
    intros st rq col Hrl Hrr Hcol.
    rewrite (main_new _ st rq (row_fid r) _ col Hrl Hrr Hgd Hcol). simpl. eauto.
  - intros r Hin Hsel Hfid.
    apply in_map_iff in Hfid as (l & Hl & Hfrom).
    apply get_all_locations_In in Hfrom as (r' & Hin' & Hsel' & ->).
    simpl in Hl.
    assert (r' = r) by (apply (NoDup_map_injective row_fid country); assumption).
    congruence.
Qed.

Lemma drawn_target_in_catalog_witness :
  NoDup (map row_fid example_country) /\
  get_random_location example_country 7 = Some chad /\
  map fid (get_all_locations example_country) = [3; 1]%Z /\
  (exists table,
      get_distances (get_all_locations example_country) 3 = Ok table) /\
  ~ In 2%Z (map fid (get_all_locations example_country)).
Proof.
  assert (Hnd : NoDup (map row_fid example_country))
    by (simpl; repeat constructor; simpl; intuition lia).
  destruct (drawn_target_in_catalog example_country 7 Hnd)
    as (_ & _ & Hdraw & Hrej).
  destruct (Hdraw chad eq_refl) as (_ & _ & _ & table & Hgd & _).
  split; [exact Hnd |]. split; [reflexivity |]. split; [reflexivity |].
  split; [exists table; exact Hgd |].
  exact (Hrej aruba ltac:(right; left; reflexivity) eq_refl).
Defined.
